(** * InviteClaimBot: the durable store, the invite reconciliation and the
      claim transaction of [bot.py], embedded and verified.

    The Python handlers are embedded as programs of a small state-and-exception
    monad over an explicit [world]: the two JSON files under [data/], the
    process-wide [invite_cache] and the calls made to the chat platform.

    What lies outside [bot.py] is taken as follows.
    - [json]: [json.dump] followed by [json.load] gives back an equal value,
      so a file holds a parsed value or text that [json.load] rejects.  The
      dicts are typed by the shapes the program writes,
      [{"accounts": [str, ...]}] and [{guild: {user: int}}]; any other
      top-level JSON value is the content [NonDict].  The worlds of the bot
      hold no dict of another shape, which [load_json] would return as it
      is and on which a handler would raise; [load_json] itself is embedded
      for every type of dicts.
    - the file system: every [open(.., 'w')] + [json.dump] takes its outcome
      from an oracle, the list [faults] (empty: every write succeeds); a
      read raises [FileNotFoundError], [JSONDecodeError] or
      [UnicodeDecodeError], by the content of the file; [os.makedirs],
      [os.replace] and [os.remove] succeed.
    - the platform: the result of [guild.invites()], of the private message
      and of the audit message are arguments of the handlers; the result of
      each [interaction.response.send_message] is given by a [responder].
      A statement that names no responder is about [accepts], the platform
      that accepts every response; the statements with a responder [R]
      hold whatever the platform answers. *)

From stdpp Require Import gmap strings list fin_maps pretty relations.

Open Scope Z_scope.

(** ** Exceptions and the monad *)

Inductive exn :=
| FileNotFoundError
| JSONDecodeError
| UnicodeDecodeError
| OSError
| KeyError
| Forbidden          (* discord.Forbidden *)
| HTTPException.     (* any other failure of a platform call *)

Inductive result (A : Type) :=
| Ok (a : A)
| Raise (e : exn).
Arguments Ok {A} a.
Arguments Raise {A} e.

Definition M (St A : Type) : Type := St → result A * St.

#[export] Instance M_ret {St} : MRet (M St) := λ A a s, (Ok a, s).
#[export] Instance M_bind {St} : MBind (M St) := λ A B f m s,
  match m s with
  | (Ok a, s') => f a s'
  | (Raise e, s') => (Raise e, s')
  end.

Definition raise {St A} (e : exn) : M St A := λ s, (Raise e, s).

(** [try: m except Exception as e: h e]; a handler for some exceptions only
    re-raises the others. *)
Definition try_except {St A} (m : M St A) (h : exn → M St A) : M St A := λ s,
  match m s with
  | (Ok a, s') => (Ok a, s')
  | (Raise e, s') => h e s'
  end.

Definition gets {St A} (f : St → A) : M St A := λ s, (Ok (f s), s).
Definition modify {St} (f : St → St) : M St unit := λ s, (Ok tt, f s).

(** Run a program for its final state. *)
Definition exec {St A} (m : M St A) (s : St) : St := (m s).2.

(** [d[k]] on a dict. *)
Definition getitem {St} `{Countable K} {V} (d : gmap K V) (k : K) : M St V :=
  match d !! k with
  | Some v => mret v
  | None => raise KeyError
  end.

(** ** Files *)

(** Content of an existing file, as [load_json] meets it. *)
Inductive content (D : Type) :=
| Garbage            (* text that json.load rejects: JSONDecodeError *)
| Undecodable        (* bytes that are no text: UnicodeDecodeError *)
| NonDict            (* JSON, but the value is not a dict *)
| Doc (d : D).       (* JSON of the dict d *)
Arguments Garbage {D}.
Arguments Undecodable {D}.
Arguments NonDict {D}.
Arguments Doc {D} d.

(** A document on disk: [filename] and its sibling [filename.tmp];
    [None] is an absent file. *)
Record file (D : Type) := File {
  main : option (content D);
  temp : option (content D);
}.
Arguments File {D} main temp.
Arguments main {D} f.
Arguments temp {D} f.

(** Outcome of one attempt to open a file for writing and dump into it. *)
Inductive wres :=
| WOk                (* written and closed *)
| WFail              (* open() raised, the file is untouched *)
| WTorn.             (* json.dump raised midway, the file is left partial *)

Definition next_fault (fs : list wres) : wres * list wres :=
  match fs with
  | [] => (WOk, [])
  | r :: fs' => (r, fs')
  end.

(** One document and the outcomes of the writes to come. *)
Record disk (D : Type) := Disk {
  dfile : file D;
  dfaults : list wres;
}.
Arguments Disk {D} dfile dfaults.
Arguments dfile {D} d.
Arguments dfaults {D} d.

Inductive path := Target | Temp.

(** [D] is the type of the dicts a file can hold.  The default of
    [load_json] and the data of [save_json] are dicts by typing, as they are
    at every call site. *)
Section Store.
Context {D : Type}.

Definition slot (p : path) (f : file D) : option (content D) :=
  match p with
  | Target => main f
  | Temp => temp f
  end.

Definition set_slot (p : path) (c : option (content D)) (f : file D) : file D :=
  match p with
  | Target => File c (temp f)
  | Temp => File (main f) c
  end.

(** [with open(p, 'r') as f: data = json.load(f)] and the [isinstance]
    test of lines 46-47. *)
Definition json_load (p : path) : M (disk D) D := λ s,
  match slot p (dfile s) with
  | None => (Raise FileNotFoundError, s)
  | Some Garbage => (Raise JSONDecodeError, s)
  | Some Undecodable => (Raise UnicodeDecodeError, s)
  | Some NonDict => (Raise JSONDecodeError, s)
  | Some (Doc d) => (Ok d, s)
  end.

(** [with open(p, 'w') as f: json.dump(data, f, indent=4)] *)
Definition json_dump (p : path) (data : D) : M (disk D) unit := λ s,
  let '(r, fs) := next_fault (dfaults s) in
  match r with
  | WOk => (Ok tt, Disk (set_slot p (Some (Doc data)) (dfile s)) fs)
  | WFail => (Raise OSError, Disk (dfile s) fs)
  | WTorn => (Raise OSError, Disk (set_slot p (Some Garbage) (dfile s)) fs)
  end.

(** [os.replace(temp_file, filename)] *)
Definition os_replace : M (disk D) unit := λ s,
  match temp (dfile s) with
  | None => (Raise FileNotFoundError, s)
  | Some c => (Ok tt, Disk (File (Some c) None) (dfaults s))
  end.

Definition os_path_exists (p : path) : M (disk D) bool :=
  gets (λ s, bool_decide (is_Some (slot p (dfile s)))).

Definition os_remove (p : path) : M (disk D) unit :=
  modify (λ s, Disk (set_slot p None (dfile s)) (dfaults s)).

(** bot.py 40-55 *)
Definition load_json (default : D) : M (disk D) D :=
  try_except
    (try_except
       (data ← json_load Target;
        mret data)
       (λ e,
          match e with
          | JSONDecodeError | FileNotFoundError =>
              json_dump Target default;;
              mret default
          | _ => raise e
          end))
    (λ _, mret default).

(** bot.py 57-74.  The argument is a dict by typing, as it is at both call
    sites, so the guard of lines 58-60 does not fire. *)
Definition save_json (data : D) : M (disk D) unit :=
  try_except
    (json_dump Temp data;;
     os_replace)
    (λ e,
       b ← os_path_exists Temp;
       (if b : bool then os_remove Temp else mret tt);;
       raise e).

End Store.

(** ** The world of the bot *)

(** [data/accounts.json]: [{"accounts": [account, ...]}] *)
Record accounts_doc := AccountsDoc { accounts : list string }.

(** [data/invites.json]: [{guild_id: {user_id: balance}}] *)
Abbreviation ledger := (gmap string (gmap string Z)).

(** What the handlers read of a [discord.Invite]. *)
Record invite := Invite {
  code : string;
  uses : Z;
  inviter : Z;         (* invite.inviter.id *)
}.

(** Result of sending a message through the platform. *)
Inductive send_res :=
| Sent
| SendForbidden      (* raises discord.Forbidden *)
| SendFailed.        (* raises another discord exception *)

(** The embeds of the responses, by their description. *)
Inductive reply :=
| NeedInvite         (* "You need at least 1 invite to claim an account!" *)
| NoAccounts         (* "Sorry, there are no accounts available!" *)
| Success            (* "A gift has been sent to ...'s DMs. Balance -1 invites." *)
| EnableDMs          (* "Couldn't send you the account via DM. Please enable DMs ..." *)
| ClaimError         (* "An error occurred while processing your claim." *)
| InviteCount (n : Z)
| CheckError
| AccountAdded
| AddError
| Remaining (n : nat)
| RemainingError.

(** Calls to the platform, in the order they were made. *)
Inductive call :=
| UserSend (user : Z) (account : string) (r : send_res)
| ChannelSend (user : Z) (r : send_res)
| Respond (r : reply).

Record world := World {
  accounts_file : file accounts_doc;
  invites_file : file ledger;
  faults : list wres;
  invite_cache : gmap Z (gmap string Z);
  calls : list call;
}.

Definition on_accounts {A} (m : M (disk accounts_doc) A) : M world A := λ w,
  let '(r, d) := m (Disk (accounts_file w) (faults w)) in
  (r, World (dfile d) (invites_file w) (dfaults d) (invite_cache w) (calls w)).

Definition on_invites {A} (m : M (disk ledger) A) : M world A := λ w,
  let '(r, d) := m (Disk (invites_file w) (faults w)) in
  (r, World (accounts_file w) (dfile d) (dfaults d) (invite_cache w) (calls w)).

Definition with_cache (c : gmap Z (gmap string Z)) (w : world) : world :=
  World (accounts_file w) (invites_file w) (faults w) c (calls w).

Definition with_faults (fs : list wres) (w : world) : world :=
  World (accounts_file w) (invites_file w) fs (invite_cache w) (calls w).

Definition set_invite_cache (c : gmap Z (gmap string Z)) : M world unit :=
  modify (with_cache c).

(** A call to the platform: it is recorded, then it returns or raises. *)
Definition platform (c : call) (r : send_res) : M world unit :=
  modify (λ w, World (accounts_file w) (invites_file w) (faults w)
                     (invite_cache w) (calls w ++ [c]));;
  match r with
  | Sent => mret tt
  | SendForbidden => raise Forbidden
  | SendFailed => raise HTTPException
  end.

(** The platform's answer to each response a handler may send, by its
    embed: [interaction.response.send_message] returns, or raises
    [discord.Forbidden] or another exception.  No handler sends the same
    embed twice, so one answer per embed describes a whole run. *)
Class responder := answer : reply → send_res.

(** The platform that accepts every response. *)
#[export] Instance accepts : responder := λ _, Sent.

(** [interaction.response.send_message(embed=...)] *)
Definition respond {R : responder} (r : reply) : M world unit :=
  platform (Respond r) (answer r).

(** [await guild.invites()] *)
Definition guild_invites (fetch : result (list invite)) : M world (list invite) :=
  λ w, (fetch, w).

(** [str(n)] *)
Definition str (n : Z) : string := pretty n.

(** ** bot.py 76-100 *)

Definition load_accounts : M world (list string) :=
  d ← on_accounts (load_json (AccountsDoc []));
  mret (accounts d).

Definition save_accounts (accs : list string) : M world unit :=
  on_accounts (save_json (AccountsDoc accs)).

Definition load_invites : M world ledger :=
  on_invites (load_json ∅).

Definition save_invites (invites : ledger) : M world unit :=
  on_invites (save_json invites).

Definition initialize_user_invites (invites : ledger) (guild_id user_id : string)
  : M world ledger :=
  let invites :=
    match invites !! guild_id with
    | None => <[guild_id := ∅]> invites
    | Some _ => invites
    end in
  g ← getitem invites guild_id;
  let invites :=
    match g !! user_id with
    | None => <[guild_id := <[user_id := 0]> g]> invites
    | Some _ => invites
    end in
  save_invites invites;;
  mret invites.

(** ** bot.py 102-162: the invite cache and the reconciliation *)

(** [{invite.code: invite.uses for invite in invites}] *)
Definition snapshot (invites : list invite) : gmap string Z :=
  foldl (λ m i, <[code i := uses i]> m) ∅ invites.

(** [on_guild_join], which is also the body of the loop of [on_ready]. *)
Definition on_guild_join (gid : Z) (fetch : result (list invite)) : M world unit :=
  try_except
    (invites ← guild_invites fetch;
     cache ← gets invite_cache;
     set_invite_cache (<[gid := snapshot invites]> cache))
    (λ e, match e with Forbidden => mret tt | _ => raise e end).

Fixpoint on_ready (guilds : list (Z * result (list invite))) : M world unit :=
  match guilds with
  | [] => mret tt
  | (gid, fetch) :: rest => on_guild_join gid fetch;; on_ready rest
  end.

Definition on_invite_create (gid : Z) (i : invite) : M world unit :=
  cache ← gets invite_cache;
  let cache :=
    match cache !! gid with
    | None => <[gid := ∅]> cache
    | Some _ => cache
    end in
  c ← getitem cache gid;
  set_invite_cache (<[gid := <[code i := uses i]> c]> cache).

(** The [for invite in new_invites] loop of lines 149-158; returning is
    the [break]. *)
Fixpoint scan_invites (gid : Z) (guild_id : string) (new_invites : list invite)
    (invites : ledger) : M world ledger :=
  match new_invites with
  | [] => mret invites
  | i :: rest =>
      cache ← gets invite_cache;
      c ← getitem cache gid;
      let old_uses := default 0 (c !! code i) in
      if bool_decide (uses i > old_uses) then
        let inviter_id := str (inviter i) in
        g ← getitem invites guild_id;
        let g :=
          match g !! inviter_id with
          | None => <[inviter_id := 0]> g
          | Some _ => g
          end in
        n ← getitem g inviter_id;
        let invites := <[guild_id := <[inviter_id := n + 1]> g]> invites in
        set_invite_cache (<[gid := <[code i := uses i]> c]> cache);;
        mret invites
      else scan_invites gid guild_id rest invites
  end.

Definition on_member_join (gid : Z) (fetch : result (list invite)) : M world unit :=
  invites ← load_invites;
  let guild_id := str gid in
  let invites :=
    match invites !! guild_id with
    | None => <[guild_id := ∅]> invites
    | Some _ => invites
    end in
  try_except
    (new_invites ← guild_invites fetch;
     invites ← scan_invites gid guild_id new_invites invites;
     save_invites invites)
    (λ e, match e with Forbidden => mret tt | _ => raise e end).

(** ** bot.py 164-323: the commands *)

(** [response.is_done()] is false whenever an outer handler runs: a
    [send_message] that raised has sent no response, and in no command does
    anything follow a [send_message] that returned. *)
Definition check_invites {R : responder} (gid uid : Z) : M world unit :=
  try_except
    (invites ← load_invites;
     let guild_id := str gid in
     let user_id := str uid in
     invites ← initialize_user_invites invites guild_id user_id;
     g ← getitem invites guild_id;
     invite_count ← getitem g user_id;
     respond (InviteCount invite_count))
    (λ _, respond CheckError).

(** [dm] is the outcome of [interaction.user.send]; [log] is [None] when
    [bot.get_channel] finds no channel, else the outcome of
    [log_channel.send]. *)
Definition claim {R : responder} (gid uid : Z) (dm : send_res)
    (log : option send_res) : M world unit :=
  try_except
    (invites ← load_invites;
     let guild_id := str gid in
     let user_id := str uid in
     invites ← initialize_user_invites invites guild_id user_id;
     g ← getitem invites guild_id;
     user_invites ← getitem g user_id;
     if bool_decide (user_invites < 1) then respond NeedInvite
     else
       accounts ← load_accounts;
       match accounts with
       | [] => respond NoAccounts
       | account0 :: rest =>
           try_except
             (platform (UserSend uid account0 dm) dm;;
              save_accounts rest;;
              g ← getitem invites guild_id;
              n ← getitem g user_id;
              let invites := <[guild_id := <[user_id := n - 1]> g]> invites in
              save_invites invites;;
              match log with
              | Some r => platform (ChannelSend uid r) r
              | None => mret tt
              end;;
              respond Success)
             (λ e, match e with Forbidden => respond EnableDMs | _ => raise e end)
       end)
    (λ _, respond ClaimError).

Definition add_account {R : responder} (account : string) : M world unit :=
  try_except
    (accounts ← load_accounts;
     save_accounts (accounts ++ [account]);;
     respond AccountAdded)
    (λ _, respond AddError).

Definition remaining {R : responder} : M world unit :=
  try_except
    (accounts ← load_accounts;
     respond (Remaining (length accounts)))
    (λ _, respond RemainingError).

(** ** The bot as a transition system *)

(** What the platform can deliver to the bot. *)
Inductive event :=
| Ready (guilds : list (Z * result (list invite)))
| GuildJoin (gid : Z) (fetch : result (list invite))
| InviteCreate (gid : Z) (i : invite)
| MemberJoin (gid : Z) (fetch : result (list invite))
| CheckInvites (gid uid : Z)
| Claim (gid uid : Z) (dm : send_res) (log : option send_res)
| AddAccount (account : string)
| RemainingAccounts.

Definition handle {R : responder} (e : event) : M world unit :=
  match e with
  | Ready guilds => on_ready guilds
  | GuildJoin gid fetch => on_guild_join gid fetch
  | InviteCreate gid i => on_invite_create gid i
  | MemberJoin gid fetch => on_member_join gid fetch
  | CheckInvites gid uid => check_invites gid uid
  | Claim gid uid dm log => claim gid uid dm log
  | AddAccount account => add_account account
  | RemainingAccounts => remaining
  end.

(** One event is handled to completion, under any outcomes [fs] of the file
    writes it makes and any answers [R] to its responses. *)
Definition step (w w' : world) : Prop :=
  ∃ (R : responder) e fs, w' = exec (handle e) (with_faults fs w).

Definition reachable : world → world → Prop := rtc step.

(** * Vocabulary of the specification *)

(** ** The documents on disk *)

(** The dict a file holds as [load_json] returns it: the default when the
    file is absent or is not the JSON of a dict. *)
Definition doc_of {D} (default : D) (f : file D) : D :=
  match main f with
  | Some (Doc d) => d
  | _ => default
  end.

(** The persisted ledger and pool, as [load_invites] and [load_accounts]
    return them. *)
Definition ledger_of (w : world) : ledger := doc_of ∅ (invites_file w).

Definition pool_of (w : world) : list string :=
  accounts (doc_of (AccountsDoc []) (accounts_file w)).

(** A member's balance in a ledger; no entry counts as 0. *)
Definition balance (l : ledger) (guild_id user_id : string) : Z :=
  default 0 (l !! guild_id ≫= λ g, g !! user_id).

(** Every balance of the ledger is non-negative. *)
Definition ledger_nonneg (l : ledger) : Prop :=
  ∀ g m u n, l !! g = Some m → m !! u = Some n → 0 ≤ n.

(** A file and the pending write outcomes after [load_json]: the healing
    write, when there is one, has consumed an outcome. *)
Definition healed {D} (default : D) (f : file D) (fs : list wres) : file D * list wres :=
  match main f with
  | Some (Doc _) | Some Undecodable => (f, fs)
  | _ =>
      match next_fault fs with
      | (WOk, fs') => (File (Some (Doc default)) (temp f), fs')
      | (WFail, fs') => (f, fs')
      | (WTorn, fs') => (File (Some Garbage) (temp f), fs')
      end
  end.

(** Result, file and pending write outcomes after [save_json]. *)
Definition saved {D} (data : D) (f : file D) (fs : list wres)
  : result unit * file D * list wres :=
  match next_fault fs with
  | (WOk, fs') => (Ok tt, File (Some (Doc data)) None, fs')
  | (_, fs') => (Raise OSError, File (main f) None, fs')
  end.

(** ** Ledger updates *)

(** The ledger after [initialize_user_invites]: the entries of the guild and
    of the member exist, no balance has changed. *)
Definition init_ledger (l : ledger) (guild_id user_id : string) : ledger :=
  <[guild_id := <[user_id := balance l guild_id user_id]> (default ∅ (l !! guild_id))]> l.

(** The ledger after [invites[guild_id][user_id] += d]. *)
Definition credit (d : Z) (l : ledger) (guild_id user_id : string) : ledger :=
  <[guild_id := <[user_id := balance l guild_id user_id + d]> (default ∅ (l !! guild_id))]> l.

(** The ledger with the entry of the guild in place, as [on_member_join]
    makes it before scanning. *)
Definition ensure_guild (l : ledger) (guild_id : string) : ledger :=
  match l !! guild_id with
  | None => <[guild_id := ∅]> l
  | Some _ => l
  end.

(** ** Reconciliation *)

(** The cached use-count of an invite; no entry counts as 0. *)
Definition cached (c : gmap string Z) (i : invite) : Z := default 0 (c !! code i).

(** The first live invite whose use-count exceeds its cached count. *)
Definition used_invite (c : gmap string Z) (new_invites : list invite) : option invite :=
  List.find (λ i, bool_decide (uses i > cached c i)) new_invites.

(** ** The claim transaction *)

(** The accounts whose private message was sent, oldest first. *)
Definition delivered (cs : list call) : list string :=
  omap (λ c, match c with UserSend _ a Sent => Some a | _ => None end) cs.

(** The attempts to send a private message. *)
Definition dm_attempts (cs : list call) : list (Z * string * send_res) :=
  omap (λ c, match c with UserSend u a r => Some (u, a, r) | _ => None end) cs.

(** The two phases of [claim]: the validation of the balance, shared with
    [check_invites], and what follows it. *)
Definition validated {A} (gid uid : Z) (k : ledger → Z → M world A) : M world A :=
  invites ← load_invites;
  invites ← initialize_user_invites invites (str gid) (str uid);
  g ← getitem invites (str gid);
  user_invites ← getitem g (str uid);
  k invites user_invites.

Definition claim_body {R : responder} (gid uid : Z) (dm : send_res)
    (log : option send_res) (invites : ledger) (user_invites : Z) : M world unit :=
  if bool_decide (user_invites < 1) then respond NeedInvite
  else
    accounts ← load_accounts;
    match accounts with
    | [] => respond NoAccounts
    | account0 :: rest =>
        try_except
          (platform (UserSend uid account0 dm) dm;;
           save_accounts rest;;
           g ← getitem invites (str gid);
           n ← getitem g (str uid);
           let invites := <[str gid := <[str uid := n - 1]> g]> invites in
           save_invites invites;;
           match log with
           | Some r => platform (ChannelSend uid r) r
           | None => mret tt
           end;;
           respond Success)
          (λ e, match e with Forbidden => respond EnableDMs | _ => raise e end)
    end.

(** How a handler leaves the world: the pool and the ledger as read from
    disk, the calls it added, the cache untouched. *)
Definition ends_with (w w' : world) (p : list string) (l : ledger)
    (cs : list call) : Prop :=
  pool_of w' = p ∧ ledger_of w' = l ∧ calls w' = calls w ++ cs
  ∧ invite_cache w' = invite_cache w.

(** What [claim] sends once the commit is on disk, by the outcome of the
    audit message. *)
Definition commit_calls (uid : Z) (log : option send_res) : list call :=
  match log with
  | None => [Respond Success]
  | Some Sent => [ChannelSend uid Sent; Respond Success]
  | Some SendForbidden => [ChannelSend uid SendForbidden; Respond EnableDMs]
  | Some SendFailed => [ChannelSend uid SendFailed; Respond ClaimError]
  end.

Section ClaimOutcome.
Variables (w : world) (gid uid : Z) (dm : send_res) (log : option send_res).
Let l := ledger_of w.
Let n := balance (ledger_of w) (str gid) (str uid).
Let l1 := init_ledger (ledger_of w) (str gid) (str uid).

(** The ways a claim attempt can end. *)
Inductive claim_outcome (w' : world) : Prop :=
| init_write_failed :
    faults w ≠ [] →
    ends_with w w' (pool_of w) l [Respond ClaimError] →
    claim_outcome w'
| need_invite :
    n < 1 →
    ends_with w w' (pool_of w) l1 [Respond NeedInvite] →
    claim_outcome w'
| no_accounts :
    1 ≤ n → pool_of w = [] →
    ends_with w w' [] l1 [Respond NoAccounts] →
    claim_outcome w'
| dm_refused x rest :
    1 ≤ n → pool_of w = x :: rest → dm = SendForbidden →
    ends_with w w' (x :: rest) l1
      [UserSend uid x SendForbidden; Respond EnableDMs] →
    claim_outcome w'
| dm_failed x rest :
    1 ≤ n → pool_of w = x :: rest → dm = SendFailed →
    ends_with w w' (x :: rest) l1
      [UserSend uid x SendFailed; Respond ClaimError] →
    claim_outcome w'
| pool_write_failed x rest :
    1 ≤ n → pool_of w = x :: rest → dm = Sent → faults w ≠ [] →
    ends_with w w' (x :: rest) l1 [UserSend uid x Sent; Respond ClaimError] →
    claim_outcome w'
| ledger_write_failed x rest :
    1 ≤ n → pool_of w = x :: rest → dm = Sent → faults w ≠ [] →
    ends_with w w' rest l1 [UserSend uid x Sent; Respond ClaimError] →
    claim_outcome w'
| committed x rest :
    1 ≤ n → pool_of w = x :: rest → dm = Sent →
    main (accounts_file w') = Some (Doc (AccountsDoc rest)) →
    main (invites_file w')
    = Some (Doc (credit (-1) l (str gid) (str uid))) →
    ends_with w w' rest (credit (-1) l (str gid) (str uid))
      (UserSend uid x Sent :: commit_calls uid log) →
    claim_outcome w'.

End ClaimOutcome.

(** ** Atomicity of the commit *)

Definition pool_kept (w w' : world) : Prop := pool_of w' = pool_of w.

Definition pool_popped (w w' : world) : Prop := ∃ x, pool_of w = x :: pool_of w'.

Definition balances_kept (w w' : world) : Prop :=
  ∀ g u, balance (ledger_of w') g u = balance (ledger_of w) g u.

(** The balance of [user_id] in [guild_id] is one less, the others are kept. *)
Definition debited (guild_id user_id : string) (w w' : world) : Prop :=
  ∀ g u, balance (ledger_of w') g u
         = balance (ledger_of w) g u
           + (if decide (guild_id = g ∧ user_id = u) then -1 else 0).

(** Pool and ledger mutated together or not at all. *)
Definition together_or_not_at_all (guild_id user_id : string) (w w' : world) : Prop :=
  (pool_kept w w' ∧ balances_kept w w')
  ∨ (pool_popped w w' ∧ debited guild_id user_id w w').

(** ** Worlds for the concrete runs *)

(** Guild 7, member 42 with one credit, two accounts in the pool, and the
    cache [{A: 3, B: 5}]. *)
Definition demo_world : world :=
  World (File (Some (Doc (AccountsDoc ["X"; "Y"]))) None)
        (File (Some (Doc {[ "7" := {[ "42" := 1 ]} ]})) None)
        []
        {[ 7 := {[ "A" := 3; "B" := 5 ]} ]}
        [].

(** The same, with the third file write to come failing. *)
Definition torn_commit_world : world := with_faults [WOk; WOk; WFail] demo_world.

Definition invite_A : invite := Invite "A" 3 42.

Definition invite_B : invite := Invite "B" 6 43.

(** ** Vocabulary of the further properties *)

(** The responses sent to interactions, oldest first. *)
Definition responses (cs : list call) : list reply :=
  omap (λ c, match c with Respond r => Some r | _ => None end) cs.

(** The slash commands among the events. *)
Definition is_command (e : event) : bool :=
  match e with
  | CheckInvites _ _ | Claim _ _ _ _ | AddAccount _ | RemainingAccounts => true
  | _ => false
  end.

(** The fetch of a guild's invites returned, or was refused. *)
Definition fetched_or_forbidden (f : result (list invite)) : Prop :=
  match f with
  | Ok _ | Raise Forbidden => True
  | Raise _ => False
  end.

(** The cache after the loop of [on_ready] went through [guilds]: the guilds
    whose fetch returned have a fresh snapshot, the others are skipped. *)
Definition refreshed (guilds : list (Z * result (list invite)))
    (cache : gmap Z (gmap string Z)) : gmap Z (gmap string Z) :=
  foldl (λ c g, match g.2 with
                | Ok invites => <[g.1 := snapshot invites]> c
                | Raise _ => c
                end) cache guilds.

(** What [claim] answers after a commit, by the outcome of the audit
    message. *)
Definition commit_reply (log : option send_res) : reply :=
  match log with
  | None | Some Sent => Success
  | Some SendForbidden => EnableDMs
  | Some SendFailed => ClaimError
  end.

(** [demo_world] with a stale temporary file beside the ledger and a torn
    write to come. *)
Definition stale_temp_disk : disk ledger :=
  Disk (File (Some (Doc {[ "7" := {[ "42" := 1 ]} ]})) (Some Garbage)) [WTorn].

(** [demo_world] whose write of the pool will fail. *)
Definition pool_fault_world : world := with_faults [WOk; WFail] demo_world.

(** [demo_world] whose next write will fail. *)
Definition write_fault_world : world := with_faults [WTorn] demo_world.

(** Invite [B] as the cache of [demo_world] knows it, and a second invite
    whose count has grown. *)
Definition invite_B0 : invite := Invite "B" 5 43.

Definition invite_C : invite := Invite "C" 2 44.

(** ** Responses that fail *)

(** What [send_message] does to its caller, by the platform's answer. *)
Definition sent (r : send_res) : result unit :=
  match r with
  | Sent => Ok tt
  | SendForbidden => Raise Forbidden
  | SendFailed => Raise HTTPException
  end.

(** The embeds that the outer [except] blocks of the commands send. *)
Definition error_reply (r : reply) : bool :=
  match r with
  | ClaimError | CheckError | AddError | RemainingError => true
  | _ => false
  end.

(** Two worlds with the same files, pending write outcomes and cache. *)
Definition same_state (w w' : world) : Prop :=
  accounts_file w = accounts_file w' ∧ invites_file w = invites_file w'
  ∧ faults w = faults w' ∧ invite_cache w = invite_cache w'.

(** [w'] is [w] after some more responses, and nothing else. *)
Definition more_responses (w w' : world) : Prop :=
  same_state w w' ∧ ∃ rs, calls w' = calls w ++ map Respond rs.

(** A platform that refuses the success response of [claim] and accepts the
    others. *)
Definition refuses_success : responder :=
  λ r, match r with Success => SendForbidden | _ => Sent end.

(** ** The accounts file as any dict of lists *)

(** The default of [load_accounts], [{"accounts": []}]. *)
Definition accounts_default : gmap string (list string) := {[ "accounts" := [] ]}.


Definition undecodable_disk : disk (gmap string (list string)) :=
  Disk (File (Some Undecodable) None) [].


(** * Verification *)

(** ** Running the monad *)

Lemma bind_run {St A B} (m : M St A) (f : A → M St B) s :
  (m ≫= f) s =
    match m s with
    | (Ok a, s') => f a s'
    | (Raise e, s') => (Raise e, s')
    end.
Proof. reflexivity. Qed.

Lemma ret_run {St A} (a : A) (s : St) : (mret a : M St A) s = (Ok a, s).
Proof. reflexivity. Qed.

Lemma try_except_run {St A} (m : M St A) (h : exn → M St A) s :
  try_except m h s =
    match m s with
    | (Ok a, s') => (Ok a, s')
    | (Raise e, s') => h e s'
    end.
Proof. reflexivity. Qed.

Lemma getitem_Some {St} `{Countable K} {V} (d : gmap K V) k v :
  d !! k = Some v → getitem (St:=St) d k = mret v.
Proof. unfold getitem. by intros ->. Qed.

(** Unfold the monad's plumbing. *)
Ltac run :=
  unfold mbind, M_bind, mret, M_ret, try_except, raise, gets, modify, exec in *;
  cbn beta iota in *.

(** Project the fields of a world given by its constructor. *)
Ltac world_simpl :=
  cbn [fst snd accounts_file invites_file faults invite_cache calls
       with_cache with_faults].

(** Split on the outcome of the [save_json] in the goal. *)
Ltac save_cases fs E :=
  match goal with
  | |- context [saved ?d ?f ?fs0] =>
      let H := fresh in
      assert ((∃ fs', saved d f fs0 = (Ok tt, File (Some (Doc d)) None, fs'))
              ∨ (∃ fs', saved d f fs0 = (Raise OSError, File (main f) None, fs')))
        as H by (unfold saved; destruct (next_fault fs0) as [[] ?]; eauto);
      destruct H as [[fs E]|[fs E]]; rewrite E; world_simpl
  end.

(** ** The durable store *)

Section StoreFacts.
Context {D : Type}.
Implicit Types (s : disk D) (f : file D) (data default : D).

Lemma doc_of_Doc default data t : doc_of default (File (Some (Doc data)) t) = data.
Proof. reflexivity. Qed.

Lemma doc_of_main default f t : doc_of default (File (main f) t) = doc_of default f.
Proof. reflexivity. Qed.

(** [load_json] catches everything: it returns the dict of the file or else
    the default, and leaves the disk as [healed] tells. *)
Lemma load_json_run default s :
  load_json default s =
    (Ok (doc_of default (dfile s)),
     Disk (healed default (dfile s) (dfaults s)).1
          (healed default (dfile s) (dfaults s)).2).
Proof.
  destruct s as [[m t] fs].
  unfold load_json, json_load, json_dump, slot, set_slot, healed, doc_of. run.
  destruct m as [[| | |d]|]; cbn; try reflexivity;
    destruct (next_fault fs) as [[] fs']; reflexivity.
Qed.

(** Undecodable bytes are not healed: the inner handler lets the
    [UnicodeDecodeError] pass, the outer one returns the default. *)
Lemma load_json_undecodable default s :
  main (dfile s) = Some Undecodable → load_json default s = (Ok default, s).
Proof.
  intros H. rewrite load_json_run. unfold doc_of, healed. rewrite H.
  by destruct s.
Qed.

(** [save_json] returns when the write to the temporary file succeeds, and
    raises with the target untouched otherwise; no temporary file stays. *)
Lemma save_json_run data s :
  save_json data s =
    ((saved data (dfile s) (dfaults s)).1.1,
     Disk (saved data (dfile s) (dfaults s)).1.2
          (saved data (dfile s) (dfaults s)).2).
Proof.
  destruct s as [[m t] fs].
  unfold save_json, json_dump, os_replace, os_path_exists, os_remove, saved. run.
  cbn. destruct (next_fault fs) as [[] fs']; cbn; try reflexivity.
  by destruct t.
Qed.

(** The healing write changes no document as [load_json] returns it. *)
Lemma healed_doc_of default f fs :
  doc_of default (healed default f fs).1 = doc_of default f.
Proof.
  unfold healed, doc_of.
  destruct (main f) as [[| | |d]|] eqn:E; cbn; rewrite ?E; try done;
    by destruct (next_fault fs) as [[] ?]; cbn; rewrite ?E.
Qed.

Lemma healed_no_faults default f : (healed default f []).2 = [].
Proof. unfold healed. by destruct (main f) as [[| | |d]|]. Qed.

Lemma saved_no_faults data f :
  saved data f [] = (Ok tt, File (Some (Doc data)) None, []).
Proof. reflexivity. Qed.


(** C8.  When [save_json] returns, a [load_json] of the same file returns
    the saved document, and [save_json] returns whenever its write succeeds.
    The write goes to the temporary file and leaves the target alone, also
    when it is torn, until the rename; so whatever the write does the target
    holds the new document or what it held before, and [load_json] returns
    the new document or what it returned before, never a partial one. *)
Theorem save_json_load_json_round_trip data default s :
  let r := save_json data s in
  (r.1 = Ok tt → load_json default r.2 = (Ok data, r.2)) ∧
  ((next_fault (dfaults s)).1 = WOk → r.1 = Ok tt) ∧
  main (dfile (json_dump Temp data s).2) = main (dfile s) ∧
  (main (dfile r.2) = Some (Doc data) ∨ main (dfile r.2) = main (dfile s)) ∧
  ((load_json default r.2).1 = Ok data
     ∨ (load_json default r.2).1 = (load_json default s).1).
Proof.
  cbn zeta. rewrite save_json_run, !load_json_run. unfold saved, json_dump.
  destruct (next_fault (dfaults s)) as [[] fs]; cbn;
    split_and!; auto; discriminate.
Qed.

End StoreFacts.



Lemma save_json_load_json_round_trip_witness :
  let s : disk ledger := Disk (File (Some (Doc {[ "7" := {[ "42" := 1 ]} ]})) None) [] in
  let new : ledger := {[ "7" := {[ "42" := 0 ]} ]} in
  load_json ∅ (save_json new s).2 = (Ok new, (save_json new s).2).
Proof.
  intros s new.
  apply (save_json_load_json_round_trip new ∅ s).
  reflexivity.
Defined.

(** ** The two documents of the bot *)

Lemma world_eta w :
  World (accounts_file w) (invites_file w) (faults w) (invite_cache w) (calls w) = w.
Proof. by destruct w. Qed.

Lemma load_invites_run w :
  load_invites w =
    (Ok (ledger_of w),
     World (accounts_file w) (healed ∅ (invites_file w) (faults w)).1
           (healed ∅ (invites_file w) (faults w)).2 (invite_cache w) (calls w)).
Proof. unfold load_invites, on_invites. by rewrite load_json_run. Qed.

Lemma load_accounts_run w :
  load_accounts w =
    (Ok (pool_of w),
     World (healed (AccountsDoc []) (accounts_file w) (faults w)).1
           (invites_file w)
           (healed (AccountsDoc []) (accounts_file w) (faults w)).2
           (invite_cache w) (calls w)).
Proof.
  unfold load_accounts, on_accounts. rewrite bind_run. by rewrite load_json_run.
Qed.

Lemma save_invites_run l w :
  save_invites l w =
    ((saved l (invites_file w) (faults w)).1.1,
     World (accounts_file w) (saved l (invites_file w) (faults w)).1.2
           (saved l (invites_file w) (faults w)).2 (invite_cache w) (calls w)).
Proof. unfold save_invites, on_invites. by rewrite save_json_run. Qed.

Lemma save_accounts_run accs w :
  save_accounts accs w =
    ((saved (AccountsDoc accs) (accounts_file w) (faults w)).1.1,
     World (saved (AccountsDoc accs) (accounts_file w) (faults w)).1.2
           (invites_file w)
           (saved (AccountsDoc accs) (accounts_file w) (faults w)).2
           (invite_cache w) (calls w)).
Proof. unfold save_accounts, on_accounts. by rewrite save_json_run. Qed.

Lemma platform_run c r w :
  platform c r w =
    (match r with
     | Sent => Ok tt
     | SendForbidden => Raise Forbidden
     | SendFailed => Raise HTTPException
     end,
     World (accounts_file w) (invites_file w) (faults w) (invite_cache w)
           (calls w ++ [c])).
Proof. unfold platform. run. by destruct r. Qed.

Lemma respond_run r w :
  respond r w =
    (Ok tt, World (accounts_file w) (invites_file w) (faults w) (invite_cache w)
                  (calls w ++ [Respond r])).
Proof. unfold respond. by rewrite platform_run. Qed.

Lemma guild_invites_run fetch w : guild_invites fetch w = (fetch, w).
Proof. reflexivity. Qed.

Lemma pool_of_cons_main w x rest :
  pool_of w = x :: rest →
  main (accounts_file w) = Some (Doc (AccountsDoc (x :: rest))).
Proof.
  unfold pool_of, doc_of.
  destruct (main (accounts_file w)) as [[| | |[a]]|]; cbn; congruence.
Qed.

(** Discharge [ends_with] from the final state. *)
Ltac ends :=
  unfold ends_with, ledger_of, pool_of; world_simpl;
  rewrite ?doc_of_Doc, ?doc_of_main, <- ?(assoc_L (++)).

(** ** Ledger updates *)

Lemma balance_lookup l g u :
  balance l g u ≠ 0 →
  ∃ m, l !! g = Some m ∧ m !! u = Some (balance l g u).
Proof.
  unfold balance. destruct (l !! g) as [m|] eqn:Hg; simpl; [|done].
  destruct (m !! u) as [n|] eqn:Hu; simpl; [|done]. eauto.
Qed.

Lemma balance_init_ledger l g u g' u' :
  balance (init_ledger l g u) g' u' = balance l g' u'.
Proof.
  unfold init_ledger, balance.
  destruct (decide (g = g')) as [<-|Hg].
  - rewrite lookup_insert_eq. cbn.
    destruct (decide (u = u')) as [<-|Hu].
    + by rewrite lookup_insert_eq.
    + rewrite lookup_insert_ne by done. by destruct (l !! g).
  - by rewrite lookup_insert_ne.
Qed.

Lemma balance_credit d l g u g' u' :
  balance (credit d l g u) g' u'
  = balance l g' u' + (if decide (g = g' ∧ u = u') then d else 0).
Proof.
  unfold credit, balance.
  destruct (decide (g = g')) as [<-|Hg].
  - rewrite lookup_insert_eq. cbn.
    destruct (decide (u = u')) as [<-|Hu].
    + rewrite lookup_insert_eq. by rewrite decide_True.
    + rewrite lookup_insert_ne by done.
      rewrite decide_False by (intros [? ?]; done).
      destruct (l !! g); cbn; rewrite ?lookup_empty; cbn; lia.
  - rewrite lookup_insert_ne by done.
    rewrite decide_False by (intros [? ?]; done). lia.
Qed.

Lemma balance_ensure_guild l g g' u' :
  balance (ensure_guild l g) g' u' = balance l g' u'.
Proof.
  unfold ensure_guild, balance. destruct (l !! g) as [m|] eqn:Hg; [done|].
  destruct (decide (g = g')) as [<-|Hne].
  - by rewrite lookup_insert_eq, Hg.
  - by rewrite lookup_insert_ne.
Qed.

Lemma init_ledger_lookup l g u :
  init_ledger l g u !! g = Some (<[u := balance l g u]> (default ∅ (l !! g))).
Proof. apply lookup_insert_eq. Qed.

(** A member with credit has an entry: initialising changes nothing. *)
Lemma init_ledger_id l g u : balance l g u ≠ 0 → init_ledger l g u = l.
Proof.
  intros (m & Hg & Hu)%balance_lookup. unfold init_ledger.
  rewrite Hg. cbn. by rewrite (insert_id m), (insert_id l).
Qed.

Lemma ensure_guild_lookup l g : is_Some (ensure_guild l g !! g).
Proof.
  unfold ensure_guild. destruct (l !! g) as [m|] eqn:Hg; [by rewrite Hg|].
  by rewrite lookup_insert_eq.
Qed.

(** The decrement of [claim], made on the initialised ledger. *)
Lemma debit_init_ledger l g u :
  <[g := <[u := balance l g u - 1]> (<[u := balance l g u]> (default ∅ (l !! g)))]>
    (init_ledger l g u)
  = credit (-1) l g u.
Proof.
  unfold init_ledger, credit. by rewrite !insert_insert_eq.
Qed.

(** The increment of [on_member_join], in the steps of lines 153-155. *)
Lemma credit_by_steps (l : ledger) g u m :
  l !! g = Some m →
  let m' := match m !! u with None => <[u := 0]> m | Some _ => m end in
  ∃ n, m' !! u = Some n ∧ <[g := <[u := n + 1]> m']> l = credit 1 l g u.
Proof.
  intros Hg. cbn zeta. unfold credit, balance. rewrite Hg. cbn.
  destruct (m !! u) as [n|] eqn:Hu; cbn.
  - exists n. by rewrite Hu.
  - exists 0. rewrite lookup_insert_eq. split; [done|].
    by rewrite insert_insert_eq.
Qed.

Lemma ledger_nonneg_balance l : ledger_nonneg l ↔ ∀ g u, 0 ≤ balance l g u.
Proof.
  unfold ledger_nonneg, balance. split.
  - intros H g u. destruct (l !! g) as [m|] eqn:Hg; simpl; [|done].
    destruct (m !! u) as [n|] eqn:Hu; simpl; [|done]. eauto.
  - intros H g m u n Hg Hu. specialize (H g u).
    by rewrite Hg in H; simpl in H; rewrite Hu in H.
Qed.

Lemma ledger_nonneg_init l g u : ledger_nonneg l → ledger_nonneg (init_ledger l g u).
Proof.
  rewrite !ledger_nonneg_balance. intros H g' u'. by rewrite balance_init_ledger.
Qed.

Lemma ledger_nonneg_ensure l g : ledger_nonneg l → ledger_nonneg (ensure_guild l g).
Proof.
  rewrite !ledger_nonneg_balance. intros H g' u'. by rewrite balance_ensure_guild.
Qed.

Lemma ledger_nonneg_credit l g u : ledger_nonneg l → ledger_nonneg (credit 1 l g u).
Proof.
  rewrite !ledger_nonneg_balance. intros H g' u'. rewrite balance_credit.
  specialize (H g' u'). case_decide; lia.
Qed.

Lemma ledger_nonneg_debit l g u :
  1 ≤ balance l g u → ledger_nonneg l → ledger_nonneg (credit (-1) l g u).
Proof.
  rewrite !ledger_nonneg_balance. intros Hn H g' u'. rewrite balance_credit.
  specialize (H g' u'). case_decide as Hd; [|lia]. destruct Hd as [<- <-]. lia.
Qed.

Create HintDb ledger.
#[local] Hint Resolve ledger_nonneg_init ledger_nonneg_ensure
  ledger_nonneg_credit ledger_nonneg_debit : ledger.

Lemma ledger_of_balance_main w g u :
  balance (ledger_of w) g u ≠ 0 →
  main (invites_file w) = Some (Doc (ledger_of w)).
Proof.
  unfold ledger_of, doc_of.
  destruct (main (invites_file w)) as [[| | |l]|]; cbn;
    try done; unfold balance; rewrite lookup_empty; done.
Qed.

(** ** The claim transaction *)

Lemma initialize_user_invites_run l g u w :
  initialize_user_invites l g u w
  = (save_invites (init_ledger l g u);; mret (init_ledger l g u)) w.
Proof.
  unfold initialize_user_invites, init_ledger, balance, getitem.
  destruct (l !! g) as [m|] eqn:Hg; cbn.
  - rewrite Hg. run.
    destruct (m !! u) as [n|] eqn:Hu; cbn.
    + by rewrite (insert_id m u n Hu), (insert_id l g m Hg).
    + reflexivity.
  - rewrite lookup_insert_eq. run. rewrite lookup_empty.
    by rewrite insert_insert_eq.
Qed.

(** The validation either stops at the write of the initialised ledger, or
    hands the member's balance to what follows, with that ledger on disk. *)
Lemma validated_run {A} gid uid (k : ledger → Z → M world A) w :
  let l := init_ledger (ledger_of w) (str gid) (str uid) in
  (∃ f fs, validated gid uid k w
             = (Raise OSError,
                World (accounts_file w) f fs (invite_cache w) (calls w))
           ∧ doc_of ∅ f = ledger_of w ∧ faults w ≠ []) ∨
  (∃ fs, validated gid uid k w
         = k l (balance (ledger_of w) (str gid) (str uid))
             (World (accounts_file w) (File (Some (Doc l)) None) fs
                    (invite_cache w) (calls w))
         ∧ (faults w = [] → fs = [])).
Proof.
  cbn zeta. unfold validated.
  rewrite bind_run, load_invites_run.
  rewrite bind_run, initialize_user_invites_run, bind_run, save_invites_run.
  world_simpl.
  assert (faults w = [] →
          saved (init_ledger (ledger_of w) (str gid) (str uid))
            (healed ∅ (invites_file w) (faults w)).1
            (healed ∅ (invites_file w) (faults w)).2
          = (Ok tt, File (Some (Doc (init_ledger (ledger_of w) (str gid) (str uid)))) None, []))
    as Hok.
  { intros ->. by rewrite healed_no_faults. }
  save_cases fs E.
  - right. exists fs. rewrite ret_run.
    rewrite bind_run, (getitem_Some _ _ _ (init_ledger_lookup _ _ _)), ret_run.
    rewrite bind_run, (getitem_Some _ _ _ (lookup_insert_eq _ _ _)), ret_run.
    split; [reflexivity|]. intros Hf. rewrite (Hok Hf) in E. congruence.
  - left. eexists _, fs. split_and!; [reflexivity| |].
    + rewrite doc_of_main. apply healed_doc_of.
    + intros Hf. by rewrite (Hok Hf) in E.
Qed.

(** The validation, by the outcome of the write of the initialised ledger. *)
Lemma validated_exact {A} gid uid (k : ledger → Z → M world A) w :
  validated gid uid k w =
    let l := init_ledger (ledger_of w) (str gid) (str uid) in
    let h := healed ∅ (invites_file w) (faults w) in
    match saved l h.1 h.2 with
    | (Ok _, f, fs) =>
        k l (balance (ledger_of w) (str gid) (str uid))
          (World (accounts_file w) f fs (invite_cache w) (calls w))
    | (Raise e, f, fs) =>
        (Raise e, World (accounts_file w) f fs (invite_cache w) (calls w))
    end.
Proof.
  cbn zeta. unfold validated.
  rewrite bind_run, load_invites_run.
  rewrite bind_run, initialize_user_invites_run, bind_run, save_invites_run.
  world_simpl.
  destruct (saved _ _ _) as [[[[]|e] f] fs]; world_simpl; [|done].
  rewrite ret_run.
  rewrite bind_run, (getitem_Some _ _ _ (init_ledger_lookup _ _ _)), ret_run.
  by rewrite bind_run, (getitem_Some _ _ _ (lookup_insert_eq _ _ _)), ret_run.
Qed.

Lemma claim_unfold {R : responder} gid uid dm log :
  claim gid uid dm log
  = try_except (validated gid uid (claim_body gid uid dm log))
               (λ _, respond ClaimError).
Proof. reflexivity. Qed.

Lemma check_invites_unfold {R : responder} gid uid :
  check_invites gid uid
  = try_except (validated gid uid (λ _ n, respond (InviteCount n)))
               (λ _, respond CheckError).
Proof. reflexivity. Qed.

(** Every claim attempt ends in one of the ways of [claim_outcome]. *)
Lemma claim_outcomes w gid uid dm log :
  claim_outcome w gid uid dm log (exec (claim gid uid dm log) w).
Proof.
  unfold exec. rewrite claim_unfold, try_except_run.
  destruct (validated_run gid uid (claim_body gid uid dm log) w)
    as [(f & fs & -> & Hf & Hne)|(fs & -> & Hfs)].
  { rewrite respond_run. apply init_write_failed; [done|]. by ends. }
  unfold claim_body.
  case_bool_decide as Hn.
  { rewrite respond_run. apply need_invite; [done|]. by ends. }
  apply Z.nlt_ge in Hn.
  rewrite bind_run, load_accounts_run. world_simpl.
  pose proof (healed_doc_of (AccountsDoc []) (accounts_file w) fs) as Hh.
  assert (fs = [] → (healed (AccountsDoc []) (accounts_file w) fs).2 = [])
    as Hhf by (intros ->; apply healed_no_faults).
  destruct (healed (AccountsDoc []) (accounts_file w) fs) as [f2 fs2].
  cbn [fst snd] in *.
  change (pool_of (World _ _ _ _ _)) with (pool_of w).
  apply (f_equal accounts) in Hh. fold (pool_of w) in Hh.
  destruct (pool_of w) as [|x rest] eqn:Hp.
  { rewrite respond_run. apply no_accounts; [done..|]. by ends. }
  rewrite try_except_run, bind_run, platform_run. world_simpl.
  destruct dm.
  - rewrite bind_run, save_accounts_run. world_simpl.
    save_cases fs3 E.
    + rewrite bind_run, (getitem_Some _ _ _ (init_ledger_lookup _ _ _)), ret_run.
      rewrite bind_run, (getitem_Some _ _ _ (lookup_insert_eq _ _ _)), ret_run.
      rewrite debit_init_ledger.
      rewrite bind_run, save_invites_run. world_simpl.
      save_cases fs4 E4.
      * apply (committed _ _ _ _ _ _ x rest); [done..| | |];
        destruct log as [[]|]; rewrite ?bind_run, ?platform_run, ?ret_run;
          world_simpl; unfold raise; world_simpl; rewrite respond_run;
          first [reflexivity | by ends].
      * unfold raise; world_simpl. rewrite respond_run.
        apply (ledger_write_failed _ _ _ _ _ _ x rest); try done.
        -- intros Hw. specialize (Hhf (Hfs Hw)). subst fs2.
           rewrite saved_no_faults in E. injection E as <-.
           by rewrite saved_no_faults in E4.
        -- by ends.
    + unfold raise. rewrite respond_run.
      apply (pool_write_failed _ _ _ _ _ _ x rest); try done.
      * intros Hw. specialize (Hhf (Hfs Hw)). subst fs2.
        by rewrite saved_no_faults in E.
      * by ends.
  - rewrite respond_run.
    apply (dm_refused _ _ _ _ _ _ x rest); try done. by ends.
  - unfold raise. rewrite respond_run.
    apply (dm_failed _ _ _ _ _ _ x rest); try done. by ends.
Qed.

Lemma delivered_app cs cs' : delivered (cs ++ cs') = delivered cs ++ delivered cs'.
Proof. apply omap_app. Qed.

Lemma dm_attempts_app cs cs' :
  dm_attempts (cs ++ cs') = dm_attempts cs ++ dm_attempts cs'.
Proof. apply omap_app. Qed.

Lemma delivered_commit_calls uid log : delivered (commit_calls uid log) = [].
Proof. by destruct log as [[]|]. Qed.

(** C1.  A claim by a member with balance at least 1, on a pool
    [x :: rest], whose private message is delivered and whose file writes
    succeed: the account sent is [x], the pool on disk is [rest], the
    ledger is on disk with the member's balance one less and every other
    balance kept. *)
Theorem claim_delivers_front w gid uid log x rest :
  faults w = [] →
  1 ≤ balance (ledger_of w) (str gid) (str uid) →
  pool_of w = x :: rest →
  let w' := exec (claim gid uid Sent log) w in
  delivered (calls w') = delivered (calls w) ++ [x] ∧
  main (accounts_file w') = Some (Doc (AccountsDoc rest)) ∧
  main (invites_file w') = Some (Doc (ledger_of w')) ∧
  balance (ledger_of w') (str gid) (str uid)
  = balance (ledger_of w) (str gid) (str uid) - 1 ∧
  ∀ g u, (g, u) ≠ (str gid, str uid) →
         balance (ledger_of w') g u = balance (ledger_of w) g u.
Proof.
  intros Hf Hn Hp. cbn zeta.
  destruct (claim_outcomes w gid uid Sent log)
    as [?|?|?|?|?|?|?|x' rest' _ Hp' _ Ha Hl (_ & Hl' & Hc & _)];
    try done; try lia; try congruence.
  rewrite Hp in Hp'. injection Hp' as <- <-.
  rewrite Hc, Hl, Hl', delivered_app. cbn.
  rewrite delivered_commit_calls. split_and!; try done.
  - rewrite balance_credit, decide_True by done. lia.
  - intros g u Hne. rewrite balance_credit, decide_False; [lia|].
    intros [<- <-]. done.
Qed.

Lemma claim_delivers_front_witness :
  let w' := exec (claim 7 42 Sent None) demo_world in
  delivered (calls w') = delivered (calls demo_world) ++ ["X"] ∧
  main (accounts_file w') = Some (Doc (AccountsDoc ["Y"])) ∧
  main (invites_file w') = Some (Doc (ledger_of w')) ∧
  balance (ledger_of w') (str 7) (str 42)
  = balance (ledger_of demo_world) (str 7) (str 42) - 1 ∧
  ∀ g u, (g, u) ≠ (str 7, str 42) →
         balance (ledger_of w') g u = balance (ledger_of demo_world) g u.
Proof.
  apply (claim_delivers_front demo_world 7 42 None "X" ["Y"]).
  - reflexivity.
  - vm_compute. discriminate.
  - reflexivity.
Defined.

(** C3.  A claim by a member whose balance (0 when there is no entry) is
    less than 1: no private message is attempted, the pool and every balance
    on disk are what they were, and the answer is the insufficient-credit one
    when the write of the initialised ledger succeeds (the generic error
    otherwise). *)
Theorem claim_insufficient_credit w gid uid dm log :
  balance (ledger_of w) (str gid) (str uid) < 1 →
  let w' := exec (claim gid uid dm log) w in
  (faults w = [] → calls w' = calls w ++ [Respond NeedInvite]) ∧
  (calls w' = calls w ++ [Respond NeedInvite]
     ∨ calls w' = calls w ++ [Respond ClaimError]) ∧
  dm_attempts (calls w') = dm_attempts (calls w) ∧
  pool_of w' = pool_of w ∧
  length (pool_of w') = length (pool_of w) ∧
  ∀ g u, balance (ledger_of w') g u = balance (ledger_of w) g u.
Proof.
  intros Hn. cbn zeta.
  destruct (claim_outcomes w gid uid dm log)
    as [Hf (Hp & Hl & Hc & _)|_ (Hp & Hl & Hc & _)|?|?|?|?|?|?]; try lia.
  - rewrite Hc, Hp, Hl, dm_attempts_app.
    change (dm_attempts [Respond _]) with (@nil (Z * string * send_res)).
    rewrite (right_id_L [] (++)). split_and!; auto; done.
  - rewrite Hc, Hp, Hl, dm_attempts_app.
    change (dm_attempts [Respond _]) with (@nil (Z * string * send_res)).
    rewrite (right_id_L [] (++)).
    split_and!; auto. intros g u. apply balance_init_ledger.
Qed.

Lemma claim_insufficient_credit_witness :
  let w' := exec (claim 7 43 Sent None) demo_world in
  (faults demo_world = [] → calls w' = calls demo_world ++ [Respond NeedInvite]) ∧
  (calls w' = calls demo_world ++ [Respond NeedInvite]
     ∨ calls w' = calls demo_world ++ [Respond ClaimError]) ∧
  dm_attempts (calls w') = dm_attempts (calls demo_world) ∧
  pool_of w' = pool_of demo_world ∧
  length (pool_of w') = length (pool_of demo_world) ∧
  ∀ g u, balance (ledger_of w') g u = balance (ledger_of demo_world) g u.
Proof.
  apply (claim_insufficient_credit demo_world 7 43 Sent None).
  vm_compute. reflexivity.
Defined.

(** C4.  A claim with balance at least 1 and pool [x :: rest] whose private
    message is refused: both files hold what they held, [x] is still the
    front of the pool, nothing was delivered, and the member is told to
    enable private messages; the sole exception is the attempt stopped
    before the delivery by a failing write of the initialised ledger, which
    answers the generic error. *)
Theorem claim_delivery_refused w gid uid log x rest :
  1 ≤ balance (ledger_of w) (str gid) (str uid) →
  pool_of w = x :: rest →
  let w' := exec (claim gid uid SendForbidden log) w in
  main (accounts_file w') = main (accounts_file w) ∧
  main (invites_file w') = main (invites_file w) ∧
  pool_of w' = x :: rest ∧
  ledger_of w' = ledger_of w ∧
  delivered (calls w') = delivered (calls w) ∧
  (calls w' = calls w ++ [UserSend uid x SendForbidden; Respond EnableDMs]
     ∨ faults w ≠ [] ∧ calls w' = calls w ++ [Respond ClaimError]) ∧
  (faults w = [] →
   calls w' = calls w ++ [UserSend uid x SendForbidden; Respond EnableDMs]).
Proof.
  intros Hn Hp. cbn zeta.
  assert (balance (ledger_of w) (str gid) (str uid) ≠ 0) as Hn0 by lia.
  assert (pool_of (exec (claim gid uid SendForbidden log) w) = x :: rest
          ∧ ledger_of (exec (claim gid uid SendForbidden log) w) = ledger_of w
          ∧ delivered (calls (exec (claim gid uid SendForbidden log) w))
            = delivered (calls w)
          ∧ (calls (exec (claim gid uid SendForbidden log) w)
             = calls w ++ [UserSend uid x SendForbidden; Respond EnableDMs]
             ∨ faults w ≠ []
               ∧ calls (exec (claim gid uid SendForbidden log) w)
                 = calls w ++ [Respond ClaimError]))
    as (Hp' & Hl' & Hd & Hc).
  { destruct (claim_outcomes w gid uid SendForbidden log)
      as [Hf (Hp' & Hl & Hc & _)|?|?|x' rest' _ Hp' _ (Hp'' & Hl & Hc & _)
          |?|?|?|?]; try done; try lia; try congruence.
    - rewrite Hc, Hp', Hl, delivered_app.
      change (delivered [_]) with (@nil string).
      rewrite (right_id_L [] (++)). split_and!; auto; done.
    - rewrite Hp in Hp'. injection Hp' as <- <-.
      rewrite Hc, Hp'', Hl, delivered_app.
      change (delivered [_; _]) with (@nil string).
      rewrite (right_id_L [] (++)).
      rewrite init_ledger_id by done. auto. }
  split_and!; try done.
  - by rewrite (pool_of_cons_main _ _ _ Hp), (pool_of_cons_main _ _ _ Hp').
  - rewrite (ledger_of_balance_main w _ _ Hn0).
    rewrite <- Hl' in Hn0 |- *. by rewrite (ledger_of_balance_main _ _ _ Hn0).
  - intros Hf. by destruct Hc as [?|[? _]].
Qed.

Lemma claim_delivery_refused_witness :
  let w' := exec (claim 7 42 SendForbidden None) demo_world in
  main (accounts_file w') = main (accounts_file demo_world) ∧
  main (invites_file w') = main (invites_file demo_world) ∧
  pool_of w' = ["X"; "Y"] ∧
  ledger_of w' = ledger_of demo_world ∧
  delivered (calls w') = delivered (calls demo_world) ∧
  (calls w' = calls demo_world ++ [UserSend 42 "X" SendForbidden; Respond EnableDMs]
     ∨ faults demo_world ≠ [] ∧ calls w' = calls demo_world ++ [Respond ClaimError]) ∧
  (faults demo_world = [] →
   calls w' = calls demo_world ++ [UserSend 42 "X" SendForbidden; Respond EnableDMs]).
Proof.
  apply (claim_delivery_refused demo_world 7 42 None "X" ["Y"]).
  - vm_compute. discriminate.
  - reflexivity.
Defined.

(** C2 fails as stated: when the write of the ledger fails after the write of
    the pool, the account is gone from the pool and the balance is intact. *)
Lemma claim_not_atomic :
  ¬ together_or_not_at_all (str 7) (str 42) torn_commit_world
      (exec (claim 7 42 Sent None) torn_commit_world).
Proof.
  assert (pool_of (exec (claim 7 42 Sent None) torn_commit_world) = ["Y"])
    as Hp by reflexivity.
  assert (balance (ledger_of (exec (claim 7 42 Sent None) torn_commit_world))
            "7" "42" = 1) as Hb by reflexivity.
  intros [[Hk _]|[_ Hd]].
  - unfold pool_kept in Hk. rewrite Hp in Hk. discriminate.
  - specialize (Hd "7" "42"). rewrite Hb in Hd. discriminate Hd.
Qed.

(** C2, amended.  When no file write fails, a claim attempt changes the pool
    and the ledger together or not at all.  Whatever fails, the only other
    outcome is a pool that lost its front account with every balance kept;
    a balance is never debited while the pool is kept. *)
Theorem claim_commit_atomicity w gid uid dm log :
  let w' := exec (claim gid uid dm log) w in
  (faults w = [] → together_or_not_at_all (str gid) (str uid) w w') ∧
  (together_or_not_at_all (str gid) (str uid) w w'
     ∨ (faults w ≠ [] ∧ pool_popped w w' ∧ balances_kept w w')) ∧
  ¬ (pool_kept w w' ∧ debited (str gid) (str uid) w w').
Proof.
  cbn zeta.
  assert (together_or_not_at_all (str gid) (str uid) w
            (exec (claim gid uid dm log) w)
          ∨ (faults w ≠ [] ∧ pool_popped w (exec (claim gid uid dm log) w)
             ∧ balances_kept w (exec (claim gid uid dm log) w))) as H.
  { unfold together_or_not_at_all, pool_kept, pool_popped, balances_kept, debited.
    destruct (claim_outcomes w gid uid dm log)
      as [? (Hp & Hl & _)|? (Hp & Hl & _)|? ? (Hp & Hl & _)
          |x rest ? Hw ? (Hp & Hl & _)|x rest ? Hw ? (Hp & Hl & _)
          |x rest ? Hw ? ? (Hp & Hl & _)|x rest ? Hw ? ? (Hp & Hl & _)
          |x rest ? Hw ? ? ? (Hp & Hl & _)];
      rewrite Hp, Hl.
    - left; left; auto.
    - left; left. split; [done|]. intros; apply balance_init_ledger.
    - left; left. split; [done|]. intros; apply balance_init_ledger.
    - left; left. split; [done|]. intros; apply balance_init_ledger.
    - left; left. split; [done|]. intros; apply balance_init_ledger.
    - left; left. split; [done|]. intros; apply balance_init_ledger.
    - right. split_and!; eauto. intros; apply balance_init_ledger.
    - left; right. split; [eauto|]. intros; apply balance_credit. }
  split_and!; [|done|].
  - intros Hf. destruct H as [H|[? _]]; done.
  - intros [Hk Hd]. specialize (Hd (str gid) (str uid)).
    rewrite decide_True in Hd by done.
    destruct H as [[[_ Hb]|[[x Hx] _]]|(_ & [x Hx] & Hb)].
    + rewrite Hb in Hd. lia.
    + rewrite Hk in Hx. apply (f_equal length) in Hx. cbn in Hx. lia.
    + rewrite Hb in Hd. lia.
Qed.

Lemma claim_commit_atomicity_witness :
  together_or_not_at_all (str 7) (str 42) demo_world
    (exec (claim 7 42 Sent None) demo_world).
Proof.
  apply (claim_commit_atomicity demo_world 7 42 Sent None). reflexivity.
Defined.

(** ** Reconciliation *)

(** The loop with a cache for the guild: it credits the inviter of
    [used_invite] and records the new count, or changes nothing. *)
Lemma scan_invites_run gid g new_invites invites w c :
  invite_cache w !! gid = Some c →
  is_Some (invites !! g) →
  scan_invites gid g new_invites invites w =
    match used_invite c new_invites with
    | Some i =>
        (Ok (credit 1 invites g (str (inviter i))),
         with_cache (<[gid := <[code i := uses i]> c]> (invite_cache w)) w)
    | None => (Ok invites, w)
    end.
Proof.
  intros Hc [m Hm]. induction new_invites as [|i rest IH]; [reflexivity|].
  cbn [scan_invites used_invite List.find].
  unfold gets at 1. rewrite bind_run. cbn beta iota.
  rewrite bind_run, (getitem_Some _ _ _ Hc), ret_run.
  fold (cached c i).
  case_bool_decide as Hu; [|apply IH].
  rewrite bind_run, (getitem_Some _ _ _ Hm), ret_run.
  destruct (credit_by_steps invites g (str (inviter i)) m Hm) as (n & Hn & <-).
  rewrite bind_run, (getitem_Some _ _ _ Hn), ret_run.
  reflexivity.
Qed.

(** The loop with no cache for the guild: the first iteration raises. *)
Lemma scan_invites_no_cache gid g i rest invites w :
  invite_cache w !! gid = None →
  scan_invites gid g (i :: rest) invites w = (Raise KeyError, w).
Proof.
  intros Hc. cbn [scan_invites]. unfold gets at 1. rewrite bind_run. cbn beta iota.
  rewrite bind_run. unfold getitem at 1. by rewrite Hc.
Qed.

Lemma used_invite_first c before i after :
  (∀ j, j ∈ before → uses j ≤ cached c j) →
  uses i > cached c i →
  used_invite c (before ++ i :: after) = Some i.
Proof.
  intros Hb Hi. unfold used_invite. induction before as [|j before IH]; cbn.
  - by rewrite bool_decide_eq_true_2.
  - rewrite bool_decide_eq_false_2.
    + apply IH. intros k Hk. apply Hb. by right.
    + specialize (Hb j ltac:(left)). lia.
Qed.

Lemma used_invite_none c new_invites :
  (∀ j, j ∈ new_invites → uses j ≤ cached c j) →
  used_invite c new_invites = None.
Proof.
  intros Hb. unfold used_invite. induction new_invites as [|j rest IH]; cbn.
  - done.
  - rewrite bool_decide_eq_false_2.
    + apply IH. intros k Hk. apply Hb. by right.
    + specialize (Hb j ltac:(left)). lia.
Qed.

Lemma on_member_join_unfold gid fetch :
  on_member_join gid fetch
  = (invites ← load_invites;
     try_except
       (new_invites ← guild_invites fetch;
        invites ← scan_invites gid (str gid) new_invites
                    (ensure_guild invites (str gid));
        save_invites invites)
       (λ e, match e with Forbidden => mret tt | _ => raise e end)).
Proof. reflexivity. Qed.

(** [on_member_join] when the fetch succeeds, the guild has a cache and no
    write fails. *)
Lemma on_member_join_run w gid c new_invites :
  faults w = [] →
  invite_cache w !! gid = Some c →
  on_member_join gid (Ok new_invites) w =
    let l := ensure_guild (ledger_of w) (str gid) in
    match used_invite c new_invites with
    | Some i =>
        (Ok tt,
         World (accounts_file w)
               (File (Some (Doc (credit 1 l (str gid) (str (inviter i))))) None)
               []
               (<[gid := <[code i := uses i]> c]> (invite_cache w))
               (calls w))
    | None =>
        (Ok tt,
         World (accounts_file w) (File (Some (Doc l)) None) []
               (invite_cache w) (calls w))
    end.
Proof.
  intros Hf Hc. rewrite on_member_join_unfold, bind_run, load_invites_run.
  rewrite try_except_run, bind_run, guild_invites_run.
  rewrite bind_run.
  rewrite (scan_invites_run _ _ _ _ _ c) by (done || apply ensure_guild_lookup).
  cbn zeta. destruct (used_invite c new_invites) as [i|];
    rewrite save_invites_run; world_simpl;
    by rewrite Hf, healed_no_faults, saved_no_faults.
Qed.

(** [on_member_join] when nothing was fetched: the loop body never runs. *)
Lemma on_member_join_run_nil w gid :
  faults w = [] →
  on_member_join gid (Ok []) w =
    (Ok tt,
     World (accounts_file w)
           (File (Some (Doc (ensure_guild (ledger_of w) (str gid)))) None) []
           (invite_cache w) (calls w)).
Proof.
  intros Hf. rewrite on_member_join_unfold, bind_run, load_invites_run.
  rewrite try_except_run, bind_run, guild_invites_run.
  rewrite bind_run. cbn [scan_invites]. rewrite ret_run.
  rewrite save_invites_run; world_simpl.
  by rewrite Hf, healed_no_faults, saved_no_faults.
Qed.

(** C5.  Reconciliation on a member join, with the invites fetched, a cache
    for the guild and no failing write.  If [i] is the first fetched invite
    whose use-count exceeds its cached count (0 when not cached), the balance
    of [i]'s inviter in this guild is one more and every other balance is
    kept, the cache holds [i]'s new count and is otherwise unchanged, so no
    later invite is credited; if no invite exceeds its cached count, no
    balance and no cache entry changes.  In both cases the handler returns
    normally with the ledger on disk. *)
Theorem on_member_join_credits_first w gid c new_invites :
  faults w = [] →
  invite_cache w !! gid = Some c →
  let r := on_member_join gid (Ok new_invites) w in
  r.1 = Ok tt ∧
  main (invites_file r.2) = Some (Doc (ledger_of r.2)) ∧
  (∀ before i after,
     new_invites = before ++ i :: after →
     (∀ j, j ∈ before → uses j ≤ cached c j) →
     uses i > cached c i →
     (∀ g u, balance (ledger_of r.2) g u
             = balance (ledger_of w) g u
               + (if decide (str gid = g ∧ str (inviter i) = u) then 1 else 0)) ∧
     invite_cache r.2 = <[gid := <[code i := uses i]> c]> (invite_cache w)) ∧
  ((∀ j, j ∈ new_invites → uses j ≤ cached c j) →
     (∀ g u, balance (ledger_of r.2) g u = balance (ledger_of w) g u) ∧
     invite_cache r.2 = invite_cache w).
Proof.
  intros Hf Hc. cbn zeta. rewrite (on_member_join_run w gid c) by done.
  cbn zeta. split_and!.
  - by destruct (used_invite c new_invites).
  - by destruct (used_invite c new_invites).
  - intros before i after -> Hb Hi.
    rewrite (used_invite_first c before i after Hb Hi). cbn.
    split; [|done]. intros g u. unfold ledger_of at 1; cbn.
    by rewrite balance_credit, balance_ensure_guild.
  - intros Hall. rewrite (used_invite_none c new_invites Hall). cbn.
    split; [|done]. intros g u. unfold ledger_of at 1; cbn.
    apply balance_ensure_guild.
Qed.

Lemma on_member_join_credits_first_witness :
  let r := on_member_join 7 (Ok [invite_A; invite_B]) demo_world in
  r.1 = Ok tt ∧
  (∀ g u, balance (ledger_of r.2) g u
          = balance (ledger_of demo_world) g u
            + (if decide (str 7 = g ∧ str 43 = u) then 1 else 0)) ∧
  invite_cache r.2 = {[ 7 := {[ "A" := 3; "B" := 6 ]} ]}.
Proof.
  destruct (on_member_join_credits_first demo_world 7
              {[ "A" := 3; "B" := 5 ]} [invite_A; invite_B])
    as (Hr & _ & Hfirst & _); [reflexivity|reflexivity|].
  split; [exact Hr|].
  destruct (Hfirst [invite_A] invite_B [] eq_refl) as [Hb Hc].
  - intros j ->%list_elem_of_singleton. vm_compute. discriminate.
  - reflexivity.
  - split; [exact Hb|]. rewrite Hc. reflexivity.
Defined.

(** C6 fails on the code.  With no cache for the guild and at least one
    fetched invite, [invite_cache[member.guild.id]] raises [KeyError]: the
    handler raises it to its caller, credits nobody and saves nothing. *)
Theorem on_member_join_missing_cache w gid i rest :
  invite_cache w !! gid = None →
  let r := on_member_join gid (Ok (i :: rest)) w in
  r.1 = Raise KeyError ∧ ledger_of r.2 = ledger_of w
  ∧ invite_cache r.2 = invite_cache w.
Proof.
  intros Hc. cbn zeta.
  rewrite on_member_join_unfold, bind_run, load_invites_run.
  rewrite try_except_run, bind_run, guild_invites_run.
  rewrite bind_run, scan_invites_no_cache by done.
  unfold raise. world_simpl. split_and!; try done.
  unfold ledger_of. world_simpl. apply healed_doc_of.
Qed.

(** [on_invite_create] does guard against the missing cache. *)
Lemma on_invite_create_missing_cache w gid i :
  invite_cache w !! gid = None →
  on_invite_create gid i w
  = (Ok tt, with_cache (<[gid := {[code i := uses i]}]> (invite_cache w)) w).
Proof.
  intros Hc. unfold on_invite_create, gets, getitem.
  rewrite bind_run. cbn beta iota.
  rewrite Hc, lookup_insert_eq, bind_run, ret_run.
  unfold set_invite_cache, modify. by rewrite insert_insert_eq, insert_empty.
Qed.

Lemma on_member_join_missing_cache_witness :
  let r := on_member_join 8 (Ok [invite_B]) demo_world in
  r.1 = Raise KeyError ∧ ledger_of r.2 = ledger_of demo_world
  ∧ invite_cache r.2 = invite_cache demo_world.
Proof.
  apply (on_member_join_missing_cache demo_world 8 invite_B []). reflexivity.
Defined.

(** C10.  A member join in which no fetched invite exceeds its cached count,
    with no failing write: the handler returns normally and the ledger on
    disk is the one read with the guild's entry in place, created empty if
    there was none; every entry that existed and every balance is kept. *)
Theorem on_member_join_no_match_persists w gid new_invites :
  faults w = [] →
  new_invites = []
    ∨ (∃ c, invite_cache w !! gid = Some c
            ∧ ∀ j, j ∈ new_invites → uses j ≤ cached c j) →
  let r := on_member_join gid (Ok new_invites) w in
  r.1 = Ok tt ∧
  main (invites_file r.2) = Some (Doc (ensure_guild (ledger_of w) (str gid))) ∧
  (ledger_of w !! str gid = None → ledger_of r.2 !! str gid = Some ∅) ∧
  (∀ g m, ledger_of w !! g = Some m → ledger_of r.2 !! g = Some m) ∧
  (∀ g u, balance (ledger_of r.2) g u = balance (ledger_of w) g u).
Proof.
  intros Hf Hno. cbn zeta.
  assert (on_member_join gid (Ok new_invites) w =
          (Ok tt,
           World (accounts_file w)
             (File (Some (Doc (ensure_guild (ledger_of w) (str gid)))) None) []
             (invite_cache w) (calls w))) as ->.
  { destruct Hno as [->|(c & Hc & Hall)].
    - by apply on_member_join_run_nil.
    - rewrite (on_member_join_run w gid c) by done.
      cbn zeta. by rewrite (used_invite_none c new_invites Hall). }
  unfold ledger_of at 2 3 5; cbn. split_and!; try done.
  - intros Hg. unfold ensure_guild. rewrite Hg. apply lookup_insert_eq.
  - intros g m Hg. unfold ensure_guild.
    destruct (ledger_of w !! str gid) eqn:E; [done|].
    rewrite lookup_insert_ne; [done|]. intros <-. congruence.
  - intros g u. apply balance_ensure_guild.
Qed.

Lemma on_member_join_no_match_persists_witness :
  let r := on_member_join 7 (Ok [invite_A]) demo_world in
  r.1 = Ok tt ∧
  main (invites_file r.2)
  = Some (Doc (ensure_guild (ledger_of demo_world) (str 7))) ∧
  (ledger_of demo_world !! str 7 = None → ledger_of r.2 !! str 7 = Some ∅) ∧
  (∀ g m, ledger_of demo_world !! g = Some m → ledger_of r.2 !! g = Some m) ∧
  (∀ g u, balance (ledger_of r.2) g u = balance (ledger_of demo_world) g u).
Proof.
  apply (on_member_join_no_match_persists demo_world 7 [invite_A]).
  - reflexivity.
  - right. exists {[ "A" := 3; "B" := 5 ]}. split; [reflexivity|].
    intros j ->%list_elem_of_singleton. vm_compute. discriminate.
Defined.

(** ** Responses that fail *)

Lemma respond_run_any {R : responder} r w :
  respond r w =
    (sent (answer r),
     World (accounts_file w) (invites_file w) (faults w) (invite_cache w)
           (calls w ++ [Respond r])).
Proof. unfold respond. rewrite platform_run. by destruct (answer r). Qed.

(** Close a goal [more_responses wa w'] on two explicit worlds. *)
Ltac more :=
  split; [by repeat split|]; world_simpl;
  first [ exists []; cbn [map]; by rewrite (right_id_L [] (++))
        | eexists [_]; cbn [map]; by rewrite <- ?(assoc_L (++))
        | eexists [_; _]; cbn [map]; by rewrite <- ?(assoc_L (++)) ].

(** Run the responses left in the goal, by the answers of the platform. *)
Ltac answers :=
  rewrite ?respond_run; world_simpl;
  repeat (rewrite respond_run_any; world_simpl;
          try match goal with
              | |- context [sent (answer ?r)] =>
                  let E := fresh "E" in
                  destruct (answer r) eqn:E; cbn [sent]; unfold raise; world_simpl
              end).

(** Whatever the platform answers to the responses, a command leaves the
    files, the pending write outcomes and the cache as it does when every
    response is accepted, and makes the same calls followed by further
    responses only. *)
Lemma claim_any_responder {R : responder} gid uid dm log w :
  more_responses (exec (claim (R:=accepts) gid uid dm log) w)
                 (exec (claim gid uid dm log) w).
Proof.
  unfold exec. rewrite !claim_unfold, !try_except_run, !validated_exact.
  cbn zeta.
  destruct (saved _ _ _) as [[[[]|e] f] fs]; world_simpl; [|answers; more].
  unfold claim_body. case_bool_decide as Hn; [answers; more|].
  rewrite !bind_run, !load_accounts_run. world_simpl.
  destruct (pool_of _) as [|x rest]; [answers; more|].
  rewrite !try_except_run, !bind_run, !platform_run. world_simpl.
  destruct dm; unfold raise; world_simpl; [|answers; more..].
  rewrite !bind_run, !save_accounts_run. world_simpl.
  save_cases fs1 E1; unfold raise; world_simpl; [|answers; more].
  rewrite !bind_run, !(getitem_Some _ _ _ (init_ledger_lookup _ _ _)), !ret_run.
  rewrite !bind_run, !(getitem_Some _ _ _ (lookup_insert_eq _ _ _)), !ret_run.
  rewrite !bind_run, !save_invites_run. world_simpl.
  save_cases fs2 E2; unfold raise; world_simpl; [|answers; more].
  destruct log as [[]|]; rewrite ?bind_run, ?platform_run, ?ret_run;
    world_simpl; unfold raise; world_simpl; answers; more.
Qed.

Lemma check_invites_any_responder {R : responder} gid uid w :
  more_responses (exec (check_invites (R:=accepts) gid uid) w)
                 (exec (check_invites gid uid) w).
Proof.
  unfold exec. rewrite !check_invites_unfold, !try_except_run, !validated_exact.
  cbn zeta.
  destruct (saved _ _ _) as [[[[]|e] f] fs]; world_simpl; answers; more.
Qed.

Lemma add_account_any_responder {R : responder} account w :
  more_responses (exec (add_account (R:=accepts) account) w)
                 (exec (add_account account) w).
Proof.
  unfold exec, add_account.
  rewrite !try_except_run, !bind_run, !load_accounts_run, !bind_run,
    !save_accounts_run.
  world_simpl. save_cases fs E; answers; more.
Qed.

Lemma remaining_any_responder {R : responder} w :
  more_responses (exec (remaining (R:=accepts)) w) (exec remaining w).
Proof.
  unfold exec, remaining.
  rewrite !try_except_run, !bind_run, !load_accounts_run. world_simpl.
  answers; more.
Qed.

Lemma more_responses_refl w : more_responses w w.
Proof. split; [done|]. exists []. cbn [map]. by rewrite (right_id_L [] (++)). Qed.

Lemma handle_any_responder {R : responder} e w :
  more_responses (exec (handle (R:=accepts) e) w) (exec (handle e) w).
Proof.
  destruct e; cbn [handle]; first
    [ apply more_responses_refl
    | apply claim_any_responder
    | apply check_invites_any_responder
    | apply add_account_any_responder
    | apply remaining_any_responder ].
Qed.

(** ** The ledger invariant *)

(** What each handler can do to the ledger on disk, under any outcomes of
    the file writes. *)

Lemma check_invites_ledger w gid uid :
  let w' := exec (check_invites gid uid) w in
  ledger_of w' = ledger_of w
  ∨ ledger_of w' = init_ledger (ledger_of w) (str gid) (str uid).
Proof.
  cbn zeta. unfold exec. rewrite check_invites_unfold, try_except_run.
  destruct (validated_run gid uid (λ _ n, respond (InviteCount n)) w)
    as [(f & fs & -> & Hf & Hne)|(fs & -> & Hfs)]; rewrite respond_run.
  - left. unfold ledger_of. by world_simpl.
  - by right.
Qed.

Lemma on_member_join_ledger w gid fetch :
  let w' := exec (on_member_join gid fetch) w in
  let l := ensure_guild (ledger_of w) (str gid) in
  ledger_of w' = ledger_of w ∨ ledger_of w' = l
  ∨ ∃ u, ledger_of w' = credit 1 l (str gid) u.
Proof.
  cbn zeta. unfold exec.
  rewrite on_member_join_unfold, bind_run, load_invites_run.
  pose proof (healed_doc_of ∅ (invites_file w) (faults w)) as Hh.
  destruct (healed ∅ (invites_file w) (faults w)) as [f1 fs1]. cbn [fst snd] in *.
  rewrite try_except_run, bind_run, guild_invites_run.
  destruct fetch as [new_invites|e].
  2:{ left. by destruct e. }
  rewrite bind_run.
  destruct (invite_cache w !! gid) as [c|] eqn:Hc.
  - rewrite (scan_invites_run _ _ _ _ _ c) by (done || apply ensure_guild_lookup).
    destruct (used_invite c new_invites) as [i|]; rewrite save_invites_run;
      world_simpl; save_cases fs4 E4; unfold raise, ledger_of; world_simpl;
      rewrite ?doc_of_Doc, ?doc_of_main; eauto.
  - destruct new_invites as [|i rest].
    + cbn [scan_invites]. rewrite ret_run, save_invites_run. world_simpl.
      save_cases fs4 E4; unfold raise, ledger_of; world_simpl;
        rewrite ?doc_of_Doc, ?doc_of_main; eauto.
    + rewrite scan_invites_no_cache by done. by left.
Qed.

(** The handlers of the cache leave both files alone. *)
Lemma on_guild_join_run gid fetch w :
  ∃ r c, on_guild_join gid fetch w = (r, with_cache c w).
Proof.
  unfold on_guild_join. rewrite try_except_run, bind_run, guild_invites_run.
  destruct fetch as [invites|e].
  - eexists _, _. reflexivity.
  - exists (match e with Forbidden => Ok tt | _ => Raise e end), (invite_cache w).
    unfold with_cache. rewrite world_eta. by destruct e.
Qed.

Lemma on_ready_run guilds w : ∃ r c, on_ready guilds w = (r, with_cache c w).
Proof.
  revert w. induction guilds as [|[gid fetch] rest IH]; intros w.
  - exists (Ok tt), (invite_cache w). unfold with_cache. by rewrite world_eta.
  - cbn [on_ready]. rewrite bind_run.
    destruct (on_guild_join_run gid fetch w) as (r & c & ->).
    destruct r as [[]|e]; [|by eexists _, _].
    destruct (IH (with_cache c w)) as (r' & c' & ->). by eexists _, _.
Qed.

Lemma on_invite_create_run gid i w :
  ∃ r c, on_invite_create gid i w = (r, with_cache c w).
Proof.
  unfold on_invite_create, gets, getitem. rewrite bind_run. cbn beta iota.
  destruct (invite_cache w !! gid) as [c|] eqn:Hc.
  - rewrite Hc, bind_run, ret_run. by eexists _, _.
  - rewrite lookup_insert_eq, bind_run, ret_run. by eexists _, _.
Qed.

(** The handlers of the pool leave the ledger file alone. *)
Lemma add_account_invites_file account w :
  invites_file (exec (add_account account) w) = invites_file w.
Proof.
  unfold exec, add_account.
  rewrite try_except_run, bind_run, load_accounts_run, bind_run, save_accounts_run.
  world_simpl. save_cases fs E; by rewrite respond_run.
Qed.

Lemma remaining_invites_file w : invites_file (exec remaining w) = invites_file w.
Proof.
  unfold exec, remaining.
  rewrite try_except_run, bind_run, load_accounts_run. world_simpl.
  by rewrite respond_run.
Qed.

(** Every handler preserves the invariant: first when the responses are
    accepted, then whatever the platform answers to them. *)
Lemma handle_ledger_nonneg e w :
  ledger_nonneg (ledger_of w) → ledger_nonneg (ledger_of (exec (handle e) w)).
Proof.
  intros H. destruct e as [guilds|gid fetch|gid i|gid fetch|gid uid
                           |gid uid dm log|account|]; cbn [handle].
  - unfold exec. by destruct (on_ready_run guilds w) as (r & c & ->).
  - unfold exec. by destruct (on_guild_join_run gid fetch w) as (r & c & ->).
  - unfold exec. by destruct (on_invite_create_run gid i w) as (r & c & ->).
  - destruct (on_member_join_ledger w gid fetch) as [->|[->|[u ->]]];
      auto with ledger.
  - destruct (check_invites_ledger w gid uid) as [->| ->]; auto with ledger.
  - destruct (claim_outcomes w gid uid dm log)
      as [? (_ & -> & _)|? (_ & -> & _)|? ? (_ & -> & _)
          |? ? ? ? ? (_ & -> & _)|? ? ? ? ? (_ & -> & _)
          |? ? ? ? ? ? (_ & -> & _)|? ? ? ? ? ? (_ & -> & _)
          |? ? ? ? ? ? ? (_ & -> & _)];
      auto with ledger.
  - unfold ledger_of. by rewrite add_account_invites_file.
  - unfold ledger_of. by rewrite remaining_invites_file.
Qed.

Lemma handle_any_ledger_nonneg {R : responder} e w :
  ledger_nonneg (ledger_of w) → ledger_nonneg (ledger_of (exec (handle e) w)).
Proof.
  intros H. destruct (handle_any_responder e w) as [(_ & Hi & _) _].
  unfold ledger_of. rewrite <- Hi. by apply handle_ledger_nonneg.
Qed.

(** C9.  From a ledger in which every balance is non-negative, no sequence of
    events, whatever the platform answers and whichever file writes fail,
    leads to a ledger on disk with a negative balance: the lazy
    initialisation, the increment of the reconciliation and the decrement of
    the claim all preserve the invariant. *)
Theorem ledger_never_negative w w' :
  ledger_nonneg (ledger_of w) → reachable w w' → ledger_nonneg (ledger_of w').
Proof.
  intros H Hr. induction Hr as [w|w w1 w' (R & e & fs & ->) _ IH]; [done|].
  apply IH. by apply (handle_any_ledger_nonneg e (with_faults fs w)).
Qed.

Lemma ledger_never_negative_witness :
  ledger_nonneg (ledger_of (exec (claim 7 42 Sent None) demo_world)).
Proof.
  apply (ledger_never_negative demo_world).
  - intros g m u n Hg Hu.
    change (ledger_of demo_world)
      with ({[ "7" := {[ "42" := 1 ]} ]} : gmap string (gmap string Z)) in Hg.
    apply lookup_singleton_Some in Hg as [<- <-].
    apply lookup_singleton_Some in Hu as [<- <-]. lia.
  - apply rtc_once. exists accepts, (Claim 7 42 Sent None), []. reflexivity.
Defined.

(** * Further properties of the code *)

(** ** Exact runs *)

Lemma validated_no_faults {A} gid uid (k : ledger → Z → M world A) w :
  faults w = [] →
  validated gid uid k w =
    k (init_ledger (ledger_of w) (str gid) (str uid))
      (balance (ledger_of w) (str gid) (str uid))
      (World (accounts_file w)
         (File (Some (Doc (init_ledger (ledger_of w) (str gid) (str uid)))) None)
         [] (invite_cache w) (calls w)).
Proof.
  intros Hf. rewrite validated_exact. cbn zeta.
  assert (healed ∅ (invites_file w) (faults w)
          = ((healed ∅ (invites_file w) (faults w)).1, [])) as ->.
  { rewrite Hf. rewrite <- (healed_no_faults ∅ (invites_file w)) at 3.
    by destruct (healed _ _ _). }
  by rewrite saved_no_faults.
Qed.

(** A file that holds a dict is not written by [load_json]. *)
Lemma healed_Doc {D} (default d : D) (f : file D) fs :
  main f = Some (Doc d) → healed default f fs = (f, fs).
Proof. unfold healed. by intros ->. Qed.

Lemma pool_of_main w accs t :
  accounts_file w = File (Some (Doc (AccountsDoc accs))) t → pool_of w = accs.
Proof. unfold pool_of, doc_of. by intros ->. Qed.

Lemma ledger_of_World a l t fs c cs :
  ledger_of (World a (File (Some (Doc l)) t) fs c cs) = l.
Proof. reflexivity. Qed.

Lemma pool_of_World accs t i fs c cs :
  pool_of (World (File (Some (Doc (AccountsDoc accs))) t) i fs c cs) = accs.
Proof. reflexivity. Qed.

Lemma init_ledger_idemp l g u :
  init_ledger (init_ledger l g u) g u = init_ledger l g u.
Proof.
  unfold init_ledger at 1. rewrite balance_init_ledger, init_ledger_lookup.
  cbn [default from_option id]. unfold init_ledger.
  by rewrite !insert_insert_eq.
Qed.

(** [claim] with no failing write, by the balance and the pool. *)
Lemma claim_run_need_invite w gid uid dm log :
  faults w = [] →
  balance (ledger_of w) (str gid) (str uid) < 1 →
  claim gid uid dm log w =
    (Ok tt,
     World (accounts_file w)
       (File (Some (Doc (init_ledger (ledger_of w) (str gid) (str uid)))) None)
       [] (invite_cache w) (calls w ++ [Respond NeedInvite])).
Proof.
  intros Hf Hn. rewrite claim_unfold, try_except_run, validated_no_faults by done.
  unfold claim_body. rewrite bool_decide_eq_true_2 by done.
  by rewrite respond_run.
Qed.

Lemma claim_run_commit w gid uid log x rest :
  faults w = [] →
  1 ≤ balance (ledger_of w) (str gid) (str uid) →
  pool_of w = x :: rest →
  claim gid uid Sent log w =
    (Ok tt,
     World (File (Some (Doc (AccountsDoc rest))) None)
       (File (Some (Doc (credit (-1) (ledger_of w) (str gid) (str uid)))) None)
       [] (invite_cache w)
       (calls w ++ UserSend uid x Sent :: commit_calls uid log)).
Proof.
  intros Hf Hn Hp. rewrite claim_unfold, try_except_run, validated_no_faults by done.
  unfold claim_body. rewrite bool_decide_eq_false_2 by lia.
  rewrite bind_run, load_accounts_run. world_simpl.
  rewrite (healed_Doc _ _ _ _ (pool_of_cons_main _ _ _ Hp)). world_simpl.
  change (pool_of (World _ _ _ _ _)) with (pool_of w). rewrite Hp.
  rewrite try_except_run, bind_run, platform_run. world_simpl.
  rewrite bind_run, save_accounts_run. world_simpl.
  rewrite saved_no_faults. world_simpl.
  rewrite bind_run, (getitem_Some _ _ _ (init_ledger_lookup _ _ _)), ret_run.
  rewrite bind_run, (getitem_Some _ _ _ (lookup_insert_eq _ _ _)), ret_run.
  rewrite debit_init_ledger.
  rewrite bind_run, save_invites_run. world_simpl.
  rewrite saved_no_faults. world_simpl.
  destruct log as [[]|]; rewrite ?bind_run, ?platform_run, ?ret_run;
    world_simpl; unfold raise; world_simpl; rewrite respond_run;
    world_simpl; by rewrite <- ?(assoc_L (++)).
Qed.

Lemma check_invites_run w gid uid :
  faults w = [] →
  check_invites gid uid w =
    (Ok tt,
     World (accounts_file w)
       (File (Some (Doc (init_ledger (ledger_of w) (str gid) (str uid)))) None)
       [] (invite_cache w)
       (calls w
        ++ [Respond (InviteCount (balance (ledger_of w) (str gid) (str uid)))])).
Proof.
  intros Hf.
  rewrite check_invites_unfold, try_except_run, validated_no_faults by done.
  by rewrite respond_run.
Qed.

Lemma add_account_run w account :
  faults w = [] →
  add_account account w =
    (Ok tt,
     World (File (Some (Doc (AccountsDoc (pool_of w ++ [account])))) None)
       (invites_file w) [] (invite_cache w)
       (calls w ++ [Respond AccountAdded])).
Proof.
  intros Hf. unfold add_account.
  rewrite try_except_run, bind_run, load_accounts_run, bind_run, save_accounts_run.
  world_simpl. rewrite Hf, healed_no_faults, saved_no_faults. world_simpl.
  by rewrite respond_run.
Qed.


(** [on_member_join] touches neither the pool file nor the platform. *)
Lemma on_member_join_frame w gid fetch :
  ∃ r f fs c,
    on_member_join gid fetch w = (r, World (accounts_file w) f fs c (calls w)).
Proof.
  rewrite on_member_join_unfold, bind_run, load_invites_run.
  destruct (healed ∅ (invites_file w) (faults w)) as [f1 fs1]. cbn [fst snd].
  rewrite try_except_run, bind_run, guild_invites_run.
  destruct fetch as [new_invites|e].
  2:{ destruct e; by eexists _, _, _, _. }
  rewrite bind_run.
  destruct (invite_cache w !! gid) as [c|] eqn:Hc.
  - rewrite (scan_invites_run _ _ _ _ _ c) by (done || apply ensure_guild_lookup).
    destruct (used_invite c new_invites) as [i|]; rewrite save_invites_run;
      world_simpl; save_cases fs4 E4; unfold raise; world_simpl;
      by eexists _, _, _, _.
  - destruct new_invites as [|i rest].
    + cbn [scan_invites]. rewrite ret_run, save_invites_run. world_simpl.
      save_cases fs4 E4; unfold raise; world_simpl; by eexists _, _, _, _.
    + rewrite scan_invites_no_cache by done. unfold raise.
      by eexists _, _, _, _.
Qed.

Lemma responses_app cs cs' : responses (cs ++ cs') = responses cs ++ responses cs'.
Proof. apply omap_app. Qed.

Lemma responses_commit_calls uid log :
  responses (commit_calls uid log) = [commit_reply log].
Proof. by destruct log as [[]|]. Qed.

(** The dict comprehension, started from any dict. *)
Lemma snapshot_lookup_from (m : gmap string Z) invites c :
  foldl (λ m i, <[code i := uses i]> m) m invites !! c
  = match last (filter (λ i, code i = c) invites) with
    | Some i => Some (uses i)
    | None => m !! c
    end.
Proof.
  revert m. induction invites as [|i rest IH]; intros m; [done|].
  cbn [foldl]. rewrite IH, filter_cons. case_decide as Hc.
  - subst c. destruct (filter _ rest) as [|j l] eqn:E.
    + change (last [i]) with (Some i). cbn beta iota. apply lookup_insert_eq.
    + rewrite last_cons_cons. destruct (last (j :: l)) eqn:El; [done|].
      by apply last_None in El.
  - destruct (last (filter _ rest)); [done|]. by rewrite lookup_insert_ne.
Qed.

(** ** The store beyond the healed cases *)

Section StoreMore.
Context {D : Type}.
Implicit Types (s : disk D) (f : file D) (data default d : D).

(** X1.  [load_json] on a file that holds a dict returns that dict, whatever
    the default, and writes nothing. *)
Theorem load_json_reads_without_writing default s d :
  main (dfile s) = Some (Doc d) → load_json default s = (Ok d, s).
Proof.
  intros H. rewrite load_json_run. unfold doc_of.
  rewrite (healed_Doc _ d), H by done. by destruct s.
Qed.

(** X2.  A file of undecodable bytes is never healed: [load_json] returns
    the default and leaves the disk as it is, so every later [load_json]
    returns the default it is given. *)
Theorem load_json_leaves_undecodable default s :
  main (dfile s) = Some Undecodable →
  load_json default s = (Ok default, s)
  ∧ ∀ default', load_json default' (load_json default s).2 = (Ok default', s).
Proof.
  intros H. rewrite (load_json_undecodable default s H). split; [done|].
  intros default'. by apply load_json_undecodable.
Qed.

(** X3.  When the healing write of [load_json] fails, the default is
    returned all the same and nothing is raised; the write is made in place,
    so a refused open leaves the file as it was and a torn write leaves
    garbage in the target.  The next [load_json] finds no dict again and
    returns its own default. *)
Theorem load_json_failed_heal default s r fs :
  main (dfile s) = None ∨ main (dfile s) = Some Garbage
    ∨ main (dfile s) = Some NonDict →
  dfaults s = r :: fs →
  r ≠ WOk →
  let s' := (load_json default s).2 in
  (load_json default s).1 = Ok default ∧
  main (dfile s') = (if r is WTorn then Some Garbage else main (dfile s)) ∧
  temp (dfile s') = temp (dfile s) ∧
  dfaults s' = fs ∧
  ∀ default', (load_json default' s').1 = Ok default'.
Proof.
  intros H Hf Hr. cbn zeta. rewrite load_json_run. cbn [fst snd dfile dfaults].
  assert (doc_of default (dfile s) = default) as ->.
  { unfold doc_of. by destruct H as [->|[->| ->]]. }
  assert (healed default (dfile s) (dfaults s)
          = (if r is WTorn then File (Some Garbage) (temp (dfile s))
             else dfile s, fs)) as ->.
  { unfold healed. rewrite Hf.
    destruct H as [->|[->| ->]]; by destruct r. }
  cbn [fst snd]. split_and!; try done.
  - by destruct r.
  - by destruct r.
  - intros default'. rewrite load_json_run. cbn [fst dfile]. unfold doc_of.
    destruct r; try done; cbn [main]; try done;
      by destruct H as [->|[->| ->]].
Qed.

(** X4.  When its write fails, [save_json] raises [OSError], leaves the
    target as it was and leaves no temporary file behind, not even one that
    was there before. *)
Theorem save_json_failure_cleans_up data s :
  (next_fault (dfaults s)).1 ≠ WOk →
  (save_json data s).1 = Raise OSError ∧
  main (dfile (save_json data s).2) = main (dfile s) ∧
  temp (dfile (save_json data s).2) = None.
Proof.
  intros H. rewrite save_json_run. unfold saved.
  by destruct (next_fault (dfaults s)) as [[] fs'].
Qed.

End StoreMore.

Lemma load_json_reads_without_writing_witness :
  load_json ∅ stale_temp_disk
  = (Ok {[ "7" := {[ "42" := 1 ]} ]}, stale_temp_disk).
Proof.
  apply (load_json_reads_without_writing ∅ stale_temp_disk). reflexivity.
Defined.

Lemma load_json_leaves_undecodable_witness :
  let s := undecodable_disk in
  load_json accounts_default s = (Ok accounts_default, s)
  ∧ ∀ default', load_json default' (load_json accounts_default s).2
                = (Ok default', s).
Proof.
  apply (load_json_leaves_undecodable accounts_default undecodable_disk).
  reflexivity.
Defined.

Lemma load_json_failed_heal_witness :
  let s : disk ledger := Disk (File None None) [WTorn] in
  (load_json ∅ s).1 = Ok ∅
  ∧ main (dfile (load_json ∅ s).2) = Some Garbage.
Proof.
  intros s.
  destruct (load_json_failed_heal ∅ s WTorn [])
    as (H1 & H2 & _); [by left|reflexivity|discriminate|].
  split; [exact H1|exact H2].
Defined.

Lemma save_json_failure_cleans_up_witness :
  (save_json ∅ stale_temp_disk).1 = Raise OSError ∧
  main (dfile (save_json ∅ stale_temp_disk).2) = main (dfile stale_temp_disk) ∧
  temp (dfile (save_json ∅ stale_temp_disk).2) = None.
Proof.
  apply (save_json_failure_cleans_up ∅ stale_temp_disk). discriminate.
Defined.

(** ** The lazy initialisation *)

(** X5.  [initialize_user_invites] returns a ledger in which the member has
    an entry and every balance is what it was (0 where there was none).  It
    either returns with that ledger on disk, or raises [OSError] with the
    ledger file as it was; it returns when no write fails, and it never
    touches the pool file. *)
Theorem initialize_user_invites_keeps_balances l g u w :
  let r := initialize_user_invites l g u w in
  let l' := init_ledger l g u in
  (∀ g' u', balance l' g' u' = balance l g' u') ∧
  (∃ m, l' !! g = Some m ∧ m !! u = Some (balance l g u)) ∧
  (r.1 = Ok l' ∧ main (invites_file r.2) = Some (Doc l')
   ∨ r.1 = Raise OSError ∧ main (invites_file r.2) = main (invites_file w)
     ∧ faults w ≠ []) ∧
  accounts_file r.2 = accounts_file w.
Proof.
  cbn zeta. rewrite initialize_user_invites_run, bind_run, save_invites_run.
  split_and!.
  - intros g' u'. apply balance_init_ledger.
  - eexists. split; [apply init_ledger_lookup|apply lookup_insert_eq].
  - unfold saved. destruct (faults w) as [|[] fs]; cbn; auto.
  - by destruct (saved _ _ _) as [[[[]|e] f] fs].
Qed.

(** ** The commands *)

(** X6.  [check_invites] with no failing write answers the member's balance
    (0 when there is no entry), changes no balance, leaves the member with an
    entry on disk and does not touch the pool file. *)
Theorem check_invites_reports_balance w gid uid :
  faults w = [] →
  let w' := exec (check_invites gid uid) w in
  calls w'
  = calls w ++ [Respond (InviteCount (balance (ledger_of w) (str gid) (str uid)))] ∧
  (∀ g u, balance (ledger_of w') g u = balance (ledger_of w) g u) ∧
  (∃ m, ledger_of w' !! str gid = Some m ∧ is_Some (m !! str uid)) ∧
  accounts_file w' = accounts_file w.
Proof.
  intros Hf. cbn zeta. unfold exec. rewrite check_invites_run by done.
  cbn [snd]. rewrite !ledger_of_World. world_simpl.
  split_and!; try done.
  - intros g u. apply balance_init_ledger.
  - eexists. split; [apply init_ledger_lookup|]. by rewrite lookup_insert_eq.
Qed.

Lemma check_invites_reports_balance_witness :
  let w' := exec (check_invites 7 43) demo_world in
  calls w' = [Respond (InviteCount 0)] ∧
  (∃ m, ledger_of w' !! str 7 = Some m ∧ is_Some (m !! str 43)).
Proof.
  destruct (check_invites_reports_balance demo_world 7 43)
    as (H1 & _ & H3 & _); [reflexivity|].
  split; [exact H1|exact H3].
Defined.

(** X7.  Two balance checks in a row, with no failing write, answer the same
    count, and the second changes nothing on disk. *)
Theorem check_invites_twice w gid uid :
  faults w = [] →
  let w1 := exec (check_invites gid uid) w in
  let w2 := exec (check_invites gid uid) w1 in
  let n := balance (ledger_of w) (str gid) (str uid) in
  responses (calls w2)
  = responses (calls w) ++ [InviteCount n; InviteCount n] ∧
  invites_file w2 = invites_file w1 ∧
  accounts_file w2 = accounts_file w.
Proof.
  intros Hf. cbn zeta. unfold exec. rewrite (check_invites_run w) by done.
  cbn [snd]. rewrite check_invites_run by reflexivity.
  cbn [snd]. rewrite !ledger_of_World. world_simpl.
  rewrite balance_init_ledger, init_ledger_idemp, !responses_app.
  by rewrite <- (assoc_L (++)).
Qed.

Lemma check_invites_twice_witness :
  let w1 := exec (check_invites 7 43) demo_world in
  let w2 := exec (check_invites 7 43) w1 in
  responses (calls w2) = [InviteCount 0; InviteCount 0] ∧
  invites_file w2 = invites_file w1.
Proof.
  destruct (check_invites_twice demo_world 7 43) as (H1 & H2 & _);
    [reflexivity|].
  split; [exact H1|exact H2].
Defined.

(** X8.  [add_account] puts the account at the end of the pool and answers
    that it was added; when a write fails the pool on disk is what it was and
    the answer is the error.  It never touches the ledger file or the
    cache. *)
Theorem add_account_appends w account :
  let w' := exec (add_account account) w in
  invites_file w' = invites_file w ∧
  invite_cache w' = invite_cache w ∧
  (main (accounts_file w') = Some (Doc (AccountsDoc (pool_of w ++ [account])))
   ∧ calls w' = calls w ++ [Respond AccountAdded]
   ∨ faults w ≠ [] ∧ pool_of w' = pool_of w
     ∧ calls w' = calls w ++ [Respond AddError]) ∧
  (faults w = [] →
   main (accounts_file w') = Some (Doc (AccountsDoc (pool_of w ++ [account])))
   ∧ calls w' = calls w ++ [Respond AccountAdded]).
Proof.
  cbn zeta.
  assert (faults w = [] →
          main (accounts_file (exec (add_account account) w))
          = Some (Doc (AccountsDoc (pool_of w ++ [account])))
          ∧ calls (exec (add_account account) w)
            = calls w ++ [Respond AccountAdded]) as Hok.
  { intros Hf. unfold exec. by rewrite add_account_run. }
  split_and!; [| | |done].
  - apply add_account_invites_file.
  - unfold exec, add_account.
    rewrite try_except_run, bind_run, load_accounts_run, bind_run,
      save_accounts_run.
    world_simpl. save_cases fs E; by rewrite respond_run.
  - destruct (faults w) as [|r fs] eqn:Hf; [left; by apply Hok|].
    unfold exec, add_account.
    rewrite try_except_run, bind_run, load_accounts_run, bind_run,
      save_accounts_run.
    world_simpl. save_cases fs' E; rewrite respond_run; world_simpl.
    + by left.
    + right. split_and!; try done. unfold pool_of. world_simpl.
      rewrite doc_of_main. f_equal. apply healed_doc_of.
Qed.

Lemma add_account_appends_witness :
  main (accounts_file (exec (add_account "Z") demo_world))
  = Some (Doc (AccountsDoc ["X"; "Y"; "Z"]))
  ∧ calls (exec (add_account "Z") demo_world) = [Respond AccountAdded].
Proof.
  apply (add_account_appends demo_world "Z"). reflexivity.
Defined.

(** X9.  [remaining] on an accounts file that holds a pool, or on none.  It
    sends the length of the pool; when the platform does not accept that
    response it sends the error embed, and it returns or raises as the last
    of the two did.  A file that holds a pool is read and not written.  The
    command is not read-only on a missing file: when the write succeeds it
    leaves the file with the empty pool behind.  The ledger file and the
    cache are never touched. *)
Theorem remaining_counts_pool {R : responder} w :
  main (accounts_file w) = None
    ∨ main (accounts_file w) = Some (Doc (AccountsDoc (pool_of w))) →
  let w' := exec remaining w in
  let r := Remaining (length (pool_of w)) in
  calls w' = calls w ++ Respond r ::
               match answer r with Sent => [] | _ => [Respond RemainingError] end ∧
  (remaining w).1
  = match answer r with Sent => Ok tt | _ => sent (answer RemainingError) end ∧
  invites_file w' = invites_file w ∧
  invite_cache w' = invite_cache w ∧
  (is_Some (main (accounts_file w)) →
   accounts_file w' = accounts_file w ∧ faults w' = faults w) ∧
  (main (accounts_file w) = None → (next_fault (faults w)).1 = WOk →
   main (accounts_file w') = Some (Doc (AccountsDoc []))).
Proof.
  intros H. cbn zeta. unfold exec, remaining.
  rewrite try_except_run, bind_run, load_accounts_run. world_simpl.
  assert (is_Some (main (accounts_file w)) →
          healed (AccountsDoc []) (accounts_file w) (faults w)
          = (accounts_file w, faults w)) as Hread.
  { intros [c Hc]. destruct H as [H|H]; [congruence|].
    by apply (healed_Doc _ _ _ _ H). }
  assert (main (accounts_file w) = None → (next_fault (faults w)).1 = WOk →
          main (healed (AccountsDoc []) (accounts_file w) (faults w)).1
          = Some (Doc (AccountsDoc []))) as Hnew.
  { intros Hm Hw. unfold healed. rewrite Hm.
    by destruct (next_fault (faults w)) as [[] fs]. }
  rewrite respond_run_any. world_simpl.
  destruct (answer (Remaining (length (pool_of w)))); cbn [sent];
    rewrite ?respond_run_any; world_simpl; rewrite <- ?(assoc_L (++));
    (split_and!; [done..| |done]); by intros ->%Hread.
Qed.

Lemma remaining_counts_pool_witness :
  let w' := exec (remaining (R:=λ _, SendFailed)) demo_world in
  calls w' = [Respond (Remaining 2); Respond RemainingError]
  ∧ (remaining (R:=λ _, SendFailed) demo_world).1 = Raise HTTPException
  ∧ accounts_file w' = accounts_file demo_world.
Proof.
  destruct (remaining_counts_pool (R:=λ _, SendFailed) demo_world)
    as (H1 & H2 & _ & _ & H3 & _); [by right|].
  split_and!; [exact H1|exact H2|]. by apply H3.
Defined.

(** X10.  The pool is first in, first out: after [add_account], a claim that
    commits delivers the account that was at the front before, or the new
    one if the pool was empty, and the pool on disk is the rest followed by
    the new account. *)
Theorem add_account_then_claim_fifo w account gid uid log :
  faults w = [] →
  1 ≤ balance (ledger_of w) (str gid) (str uid) →
  let w1 := exec (add_account account) w in
  let w2 := exec (claim gid uid Sent log) w1 in
  delivered (calls w2) = delivered (calls w) ++ [hd account (pool_of w)] ∧
  pool_of w2 = tail (pool_of w ++ [account]) ∧
  responses (calls w2) = responses (calls w) ++ [AccountAdded; commit_reply log].
Proof.
  intros Hf Hn. cbn zeta. unfold exec at 2 4 6. rewrite add_account_run by done.
  cbn [snd]. unfold exec.
  assert (∃ x rest, pool_of w ++ [account] = x :: rest
                    ∧ x = hd account (pool_of w)) as (x & rest & Hp & ->).
  { destruct (pool_of w) as [|y l]; cbn; eauto. }
  rewrite (claim_run_commit _ gid uid log (hd account (pool_of w)) rest);
    [|reflexivity|done|by rewrite pool_of_World].
  cbn [snd]. rewrite pool_of_World. world_simpl.
  rewrite Hp, !delivered_app, !responses_app. cbn [tail].
  change (delivered [Respond AccountAdded]) with (@nil string).
  change (responses [Respond AccountAdded]) with [AccountAdded].
  change (delivered (?a :: ?l)) with (hd account (pool_of w) :: delivered (commit_calls uid log)).
  change (responses (UserSend ?u ?a ?r :: ?l)) with (responses (commit_calls uid log)).
  rewrite delivered_commit_calls, responses_commit_calls.
  by rewrite (right_id_L [] (++)), <- (assoc_L (++)).
Qed.

Lemma add_account_then_claim_fifo_witness :
  let w1 := exec (add_account "Z") demo_world in
  let w2 := exec (claim 7 42 Sent None) w1 in
  delivered (calls w2) = ["X"] ∧ pool_of w2 = ["Y"; "Z"]
  ∧ responses (calls w2) = [AccountAdded; Success].
Proof.
  apply (add_account_then_claim_fifo demo_world "Z" 7 42 None).
  - reflexivity.
  - vm_compute. discriminate.
Defined.

(** X11.  A claim with balance at least 1 on an empty pool: no private
    message is attempted, no balance changes, the pool stays empty, and the
    answer is that no account is available when no write fails. *)
Theorem claim_empty_pool w gid uid dm log :
  1 ≤ balance (ledger_of w) (str gid) (str uid) →
  pool_of w = [] →
  let w' := exec (claim gid uid dm log) w in
  dm_attempts (calls w') = dm_attempts (calls w) ∧
  pool_of w' = [] ∧
  (∀ g u, balance (ledger_of w') g u = balance (ledger_of w) g u) ∧
  (faults w = [] → calls w' = calls w ++ [Respond NoAccounts]).
Proof.
  intros Hn Hp. cbn zeta.
  destruct (claim_outcomes w gid uid dm log)
    as [Hf (Hp' & Hl & Hc & _)|?|_ _ (Hp' & Hl & Hc & _)|?|?|?|?|?];
    try lia; try congruence.
  - rewrite Hc, Hp', Hl, Hp, dm_attempts_app.
    change (dm_attempts [Respond _]) with (@nil (Z * string * send_res)).
    rewrite (right_id_L [] (++)). split_and!; auto; done.
  - rewrite Hc, Hp', Hl, dm_attempts_app.
    change (dm_attempts [Respond _]) with (@nil (Z * string * send_res)).
    rewrite (right_id_L [] (++)).
    split_and!; auto. intros g u. apply balance_init_ledger.
Qed.

Lemma claim_empty_pool_witness :
  let w := World (File None None)
             (File (Some (Doc {[ "7" := {[ "42" := 1 ]} ]})) None) [] ∅ [] in
  calls (exec (claim 7 42 Sent None) w) = [Respond NoAccounts].
Proof.
  intros w. destruct (claim_empty_pool w 7 42 Sent None) as (_ & _ & _ & H).
  - vm_compute. discriminate.
  - reflexivity.
  - by apply H.
Defined.

(** X12.  The audit message cannot undo a commit: whatever happens to it,
    both files are what they are without an audit channel and the account is
    delivered.  Its failure does change the answer: when the audit channel
    refuses the message the member is told to enable private messages, and
    any other failure gives the generic error. *)
Theorem claim_audit_keeps_commit w gid uid log x rest :
  faults w = [] →
  1 ≤ balance (ledger_of w) (str gid) (str uid) →
  pool_of w = x :: rest →
  let w' := exec (claim gid uid Sent log) w in
  let w0 := exec (claim gid uid Sent None) w in
  accounts_file w' = accounts_file w0 ∧
  invites_file w' = invites_file w0 ∧
  delivered (calls w') = delivered (calls w) ++ [x] ∧
  responses (calls w') = responses (calls w) ++ [commit_reply log].
Proof.
  intros Hf Hn Hp. cbn zeta. unfold exec.
  rewrite !(claim_run_commit w gid uid _ x rest) by done.
  cbn [snd]. world_simpl. rewrite delivered_app, responses_app.
  change (delivered (?a :: ?l)) with (x :: delivered (commit_calls uid log)).
  change (responses (UserSend ?u ?a ?r :: ?l))
    with (responses (commit_calls uid log)).
  by rewrite delivered_commit_calls, responses_commit_calls.
Qed.

Lemma claim_audit_keeps_commit_witness :
  let w' := exec (claim 7 42 Sent (Some SendForbidden)) demo_world in
  pool_of w' = ["Y"] ∧ balance (ledger_of w') "7" "42" = 0
  ∧ delivered (calls w') = ["X"] ∧ responses (calls w') = [EnableDMs].
Proof.
  destruct (claim_audit_keeps_commit demo_world 7 42 (Some SendForbidden)
              "X" ["Y"]) as (H1 & H2 & H3 & H4);
    [reflexivity|vm_compute; discriminate|reflexivity|].
  split_and!; [|  |exact H3|exact H4].
  - unfold pool_of. by rewrite H1.
  - unfold ledger_of. by rewrite H2.
Defined.

(** X13.  When the write of the pool fails after the private message was
    sent, nothing is committed: the member holds the account, the pool still
    has it at the front, no balance has changed and the answer is the generic
    error.  A retry whose writes succeed then delivers the same account a
    second time, for one credit. *)
Theorem claim_pool_write_failure w gid uid log x rest r fs :
  1 ≤ balance (ledger_of w) (str gid) (str uid) →
  pool_of w = x :: rest →
  faults w = WOk :: r :: fs →
  r ≠ WOk →
  let w' := exec (claim gid uid Sent log) w in
  calls w' = calls w ++ [UserSend uid x Sent; Respond ClaimError] ∧
  pool_of w' = x :: rest ∧
  ledger_of w' = ledger_of w ∧
  faults w' = fs ∧
  (fs = [] →
   let w2 := exec (claim gid uid Sent log) w' in
   delivered (calls w2) = delivered (calls w) ++ [x; x] ∧
   pool_of w2 = rest ∧
   balance (ledger_of w2) (str gid) (str uid)
   = balance (ledger_of w) (str gid) (str uid) - 1).
Proof.
  intros Hn Hp Hf Hr. cbn zeta.
  assert (balance (ledger_of w) (str gid) (str uid) ≠ 0) as Hn0 by lia.
  assert (claim gid uid Sent log w =
          (Ok tt,
           World (File (main (accounts_file w)) None)
             (File (Some (Doc (ledger_of w))) None) fs (invite_cache w)
             (calls w ++ [UserSend uid x Sent; Respond ClaimError]))) as Hrun.
  { rewrite claim_unfold, try_except_run, validated_exact. cbn zeta.
    rewrite (healed_Doc _ _ _ _ (ledger_of_balance_main w _ _ Hn0)).
    cbn [fst snd]. rewrite Hf, init_ledger_id by done.
    change (saved ?l ?f (WOk :: r :: fs))
      with (Ok tt, File (Some (Doc l)) None, r :: fs).
    cbn beta iota. unfold claim_body. rewrite bool_decide_eq_false_2 by lia.
    rewrite bind_run, load_accounts_run. world_simpl.
    rewrite (healed_Doc _ _ _ _ (pool_of_cons_main _ _ _ Hp)). world_simpl.
    change (pool_of (World _ _ _ _ _)) with (pool_of w). rewrite Hp.
    rewrite try_except_run, bind_run, platform_run. world_simpl.
    rewrite bind_run, save_accounts_run. world_simpl.
    assert (∀ d f, saved (D:=accounts_doc) d f (r :: fs)
                   = (Raise OSError, File (main f) None, fs)) as ->
      by (intros; by destruct r).
    world_simpl. unfold raise. rewrite respond_run. world_simpl.
    by rewrite <- (assoc_L (++)). }
  unfold exec at 1 2 3 4. rewrite Hrun. cbn [snd]. world_simpl.
  rewrite ledger_of_World.
  assert (pool_of (World (File (main (accounts_file w)) None)
             (File (Some (Doc (ledger_of w))) None) fs (invite_cache w)
             (calls w ++ [UserSend uid x Sent; Respond ClaimError]))
          = x :: rest) as Hp'.
  { unfold pool_of. world_simpl. by rewrite doc_of_main. }
  split_and!; try done.
  intros ->. unfold exec. rewrite Hrun. cbn [snd].
  rewrite (claim_run_commit _ gid uid log x rest);
    [|reflexivity|by rewrite ledger_of_World|done].
  cbn [snd]. rewrite pool_of_World, !ledger_of_World. world_simpl.
  rewrite !delivered_app.
  change (delivered [UserSend uid x Sent; Respond ClaimError]) with [x].
  change (delivered (?a :: ?l)) with (x :: delivered (commit_calls uid log)).
  rewrite delivered_commit_calls, <- (assoc_L (++)).
  split_and!; try done.
  rewrite balance_credit, decide_True by done. lia.
Qed.

Lemma claim_pool_write_failure_witness :
  let w' := exec (claim 7 42 Sent None) pool_fault_world in
  let w2 := exec (claim 7 42 Sent None) w' in
  pool_of w' = ["X"; "Y"] ∧ ledger_of w' = ledger_of pool_fault_world ∧
  delivered (calls w2) = ["X"; "X"] ∧ pool_of w2 = ["Y"].
Proof.
  destruct (claim_pool_write_failure pool_fault_world 7 42 None "X" ["Y"]
              WFail []) as (_ & H2 & H3 & _ & H5);
    [vm_compute; discriminate|reflexivity|reflexivity|discriminate|].
  destruct (H5 eq_refl) as (H6 & H7 & _).
  split_and!; [exact H2|exact H3|exact H6|exact H7].
Defined.

(** Close a goal on the calls of a run, once the calls before the last
    response are given. *)
Ltac attempts :=
  world_simpl; rewrite <- ?(assoc_L (++));
  split_and!;
    [ reflexivity
    | cbn; repeat constructor; congruence
    | cbn; lia
    | first [ reflexivity
            | match goal with
              | E : answer ?r = _ |- _ = sent (answer ?r) => by rewrite E
              end ]
    | first [ left; reflexivity | right; reflexivity ] ].

Ltac answered :=
  answers;
  first [ eexists [], _; attempts
        | eexists [_], _; attempts
        | eexists [_; _], _; attempts
        | eexists [_; _; _], _; attempts
        | eexists [_; _; _; _], _; attempts ].

(** X14.  Whatever the platform answers to the responses and whichever
    writes fail, the last call of a command is a response, every response it
    sent before that one was not accepted, and there are at most two of
    those; the command returns when its last response is accepted and raises
    what [send_message] raised otherwise, which can only happen to the error
    embed of its outer [except].  So no command sends a second response
    after an accepted one, and none stays silent. *)
Theorem commands_answer_once {R : responder} e w :
  is_command e = true →
  ∃ pre last,
    calls (handle e w).2 = calls w ++ pre ++ [Respond last]
    ∧ Forall (λ r, answer r ≠ Sent) (responses pre)
    ∧ (length (responses pre) ≤ 2)%nat
    ∧ (handle e w).1 = sent (answer last)
    ∧ ((handle e w).1 = Ok tt ∨ error_reply last = true).
Proof.
  intros He.
  destruct e as [| | | |gid uid|gid uid dm log|account|]; try discriminate;
    cbn [handle].
  - rewrite check_invites_unfold, try_except_run, validated_exact. cbn zeta.
    destruct (saved _ _ _) as [[[[]|e] f] fs]; world_simpl; answered.
  - rewrite claim_unfold, try_except_run, validated_exact. cbn zeta.
    destruct (saved _ _ _) as [[[[]|e] f] fs]; world_simpl; [|answered].
    unfold claim_body. case_bool_decide as Hn; [answered|].
    rewrite bind_run, load_accounts_run. world_simpl.
    destruct (pool_of _) as [|x rest]; [answered|].
    rewrite try_except_run, bind_run, platform_run. world_simpl.
    destruct dm; unfold raise; world_simpl; [|answered..].
    rewrite bind_run, save_accounts_run. world_simpl.
    save_cases fs1 E1; unfold raise; world_simpl; [|answered].
    rewrite bind_run, (getitem_Some _ _ _ (init_ledger_lookup _ _ _)), ret_run.
    rewrite bind_run, (getitem_Some _ _ _ (lookup_insert_eq _ _ _)), ret_run.
    rewrite bind_run, save_invites_run. world_simpl.
    save_cases fs2 E2; unfold raise; world_simpl; [|answered].
    destruct log as [[]|]; rewrite ?bind_run, ?platform_run, ?ret_run;
      world_simpl; unfold raise; world_simpl; answered.
  - unfold add_account.
    rewrite try_except_run, bind_run, load_accounts_run, bind_run,
      save_accounts_run.
    world_simpl. save_cases fs E; unfold raise; world_simpl; answered.
  - unfold remaining.
    rewrite try_except_run, bind_run, load_accounts_run. world_simpl.
    answered.
Qed.

Lemma commands_answer_once_witness :
  ∃ pre last,
    calls (handle (R:=refuses_success) (Claim 7 42 Sent None) demo_world).2
    = calls demo_world ++ pre ++ [Respond last]
    ∧ Forall (λ r, refuses_success r ≠ Sent) (responses pre)
    ∧ (length (responses pre) ≤ 2)%nat
    ∧ (handle (R:=refuses_success) (Claim 7 42 Sent None) demo_world).1
      = sent (refuses_success last)
    ∧ ((handle (R:=refuses_success) (Claim 7 42 Sent None) demo_world).1 = Ok tt
       ∨ error_reply last = true).
Proof.
  apply (commands_answer_once (R:=refuses_success) (Claim 7 42 Sent None)
           demo_world).
  reflexivity.
Defined.

(** X15.  The gateway events never send anything to the platform and never
    touch the pool file, whatever is fetched and whichever writes fail. *)
Theorem events_send_nothing e w :
  is_command e = false →
  calls (exec (handle e) w) = calls w ∧
  accounts_file (exec (handle e) w) = accounts_file w.
Proof.
  intros He.
  destruct e as [guilds|gid fetch|gid i|gid fetch| | | |]; try discriminate;
    cbn [handle]; unfold exec.
  - by destruct (on_ready_run guilds w) as (r & c & ->).
  - by destruct (on_guild_join_run gid fetch w) as (r & c & ->).
  - by destruct (on_invite_create_run gid i w) as (r & c & ->).
  - by destruct (on_member_join_frame w gid fetch) as (r & f & fs & c & ->).
Qed.

Lemma events_send_nothing_witness :
  calls (exec (handle (MemberJoin 7 (Ok [invite_A; invite_B]))) demo_world) = [].
Proof.
  apply (events_send_nothing (MemberJoin 7 (Ok [invite_A; invite_B]))
           demo_world).
  reflexivity.
Defined.

(** X25.  Whatever the platform answers to the responses, an event leaves
    the files, the pending write outcomes and the cache as it does when every
    response is accepted, and attempts and delivers the same private
    messages: its calls are those of that run followed by further responses
    only.  What is committed or delivered never depends on a response. *)
Theorem responses_leave_state {R : responder} e w :
  let wa := exec (handle (R:=accepts) e) w in
  let w' := exec (handle e) w in
  accounts_file w' = accounts_file wa ∧
  invites_file w' = invites_file wa ∧
  faults w' = faults wa ∧
  invite_cache w' = invite_cache wa ∧
  dm_attempts (calls w') = dm_attempts (calls wa) ∧
  delivered (calls w') = delivered (calls wa) ∧
  ∃ rs, calls w' = calls wa ++ map Respond rs.
Proof.
  cbn zeta.
  destruct (handle_any_responder e w) as [(Ha & Hi & Hf & Hc) [rs Hrs]].
  split_and!; try done; [| |by exists rs].
  - rewrite Hrs, dm_attempts_app.
    assert (dm_attempts (map Respond rs) = []) as ->;
      [|by rewrite (right_id_L [] (++))].
    clear Hrs. induction rs as [|r rs IH]; [done|exact IH].
  - rewrite Hrs, delivered_app.
    assert (delivered (map Respond rs) = []) as ->;
      [|by rewrite (right_id_L [] (++))].
    clear Hrs. induction rs as [|r rs IH]; [done|exact IH].
Qed.

(** ** The invite cache *)

Lemma on_guild_join_Ok gid invites w :
  on_guild_join gid (Ok invites) w
  = (Ok tt, with_cache (<[gid := snapshot invites]> (invite_cache w)) w).
Proof. reflexivity. Qed.

Lemma on_guild_join_Raise gid e w :
  on_guild_join gid (Raise e) w
  = (if e is Forbidden then Ok tt else Raise e, w).
Proof. by destruct e. Qed.

Lemma cached_insert c i j :
  cached (<[code i := uses i]> c) j
  = if decide (code j = code i) then uses i else cached c j.
Proof.
  unfold cached. case_decide as H.
  - by rewrite H, lookup_insert_eq.
  - by rewrite lookup_insert_ne.
Qed.

Lemma ensure_guild_credit d l g u : ensure_guild (credit d l g u) g = credit d l g u.
Proof. unfold ensure_guild, credit. by rewrite lookup_insert_eq. Qed.

(** X16.  In the snapshot of a fetch, the count of a code is the use-count of
    the last fetched invite with that code, and a code that was not fetched
    has no entry. *)
Theorem snapshot_last_wins invites c :
  snapshot invites !! c = uses <$> last (filter (λ i, code i = c) invites).
Proof.
  unfold snapshot. rewrite snapshot_lookup_from.
  by destruct (last _).
Qed.

(** X17.  [on_guild_join] with the invites fetched replaces the guild's
    cache by their snapshot, so a code cached before and not fetched now is
    gone; the other guilds, both files and the platform are left alone.
    With the fetch refused it returns normally and changes nothing. *)
Theorem on_guild_join_refreshes w gid invites :
  let r := on_guild_join gid (Ok invites) w in
  r.1 = Ok tt ∧
  (∀ c, invite_cache r.2 !! gid ≫= (λ m, m !! c)
        = uses <$> last (filter (λ i, code i = c) invites)) ∧
  (∀ gid', gid' ≠ gid → invite_cache r.2 !! gid' = invite_cache w !! gid') ∧
  accounts_file r.2 = accounts_file w ∧
  invites_file r.2 = invites_file w ∧
  calls r.2 = calls w ∧
  on_guild_join gid (Raise Forbidden) w = (Ok tt, w).
Proof.
  cbn zeta. rewrite on_guild_join_Ok. cbn [fst snd]. world_simpl.
  split_and!; try done.
  - intros c. rewrite lookup_insert_eq. cbn.
    unfold snapshot. rewrite snapshot_lookup_from. by destruct (last _).
  - intros gid' Hne. by rewrite lookup_insert_ne.
Qed.

(** X18.  [on_ready] goes through the guilds in order: as long as every
    fetch returns or is refused it returns normally, with a fresh snapshot
    for the guilds fetched and the refused guilds skipped.  A fetch that
    fails otherwise aborts the loop: the exception leaves [on_ready] and the
    guilds after it are not cached, whatever their fetch would give. *)
Theorem on_ready_skips_forbidden guilds w :
  Forall (λ g, fetched_or_forbidden g.2) guilds →
  on_ready guilds w
  = (Ok tt, with_cache (refreshed guilds (invite_cache w)) w) ∧
  ∀ gid e after,
    e ≠ Forbidden →
    on_ready (guilds ++ (gid, Raise e) :: after) w
    = (Raise e, with_cache (refreshed guilds (invite_cache w)) w).
Proof.
  intros Hall. revert w.
  induction Hall as [|[gid0 fetch] rest Hg Hrest IH]; intros w.
  - split.
    + unfold refreshed, with_cache. cbn. by rewrite world_eta.
    + intros gid e after He. cbn [app on_ready]. rewrite bind_run.
      rewrite on_guild_join_Raise. unfold refreshed, with_cache. cbn [foldl].
      rewrite world_eta. by destruct e.
  - cbn [fst snd] in Hg.
    assert (∃ c, on_guild_join gid0 fetch w = (Ok tt, with_cache c w)
                 ∧ refreshed ((gid0, fetch) :: rest) (invite_cache w)
                   = refreshed rest c) as (c & Hrun & Hc).
    { destruct fetch as [invites|e].
      - eexists. by rewrite on_guild_join_Ok.
      - destruct e; try done. exists (invite_cache w).
        rewrite on_guild_join_Raise. unfold with_cache. by rewrite world_eta. }
    destruct (IH (with_cache c w)) as [IH1 IH2]. split.
    + cbn [on_ready]. by rewrite bind_run, Hrun, IH1, Hc.
    + intros gid e after He. cbn [app on_ready].
      by rewrite bind_run, Hrun, (IH2 _ _ _ He), Hc.
Qed.

Lemma on_ready_skips_forbidden_witness :
  let guilds := [(8, Raise Forbidden); (9, Ok [invite_A])] in
  on_ready guilds demo_world
  = (Ok tt, with_cache (refreshed guilds (invite_cache demo_world)) demo_world)
  ∧ on_ready (guilds ++ [(10, Raise HTTPException); (11, Ok [invite_B])])
      demo_world
    = (Raise HTTPException,
       with_cache (refreshed guilds (invite_cache demo_world)) demo_world).
Proof.
  intros guilds.
  destruct (on_ready_skips_forbidden guilds demo_world) as [H1 H2].
  - repeat constructor.
  - split; [exact H1|]. by apply H2.
Defined.



(** X20.  When the fetch of [on_member_join] fails, nobody is credited and
    neither the ledger as read, the cache, the pool file nor the platform
    changes; a refusal is swallowed and the handler returns normally, any
    other exception leaves the handler. *)
Theorem on_member_join_fetch_fails w gid e :
  let r := on_member_join gid (Raise e) w in
  r.1 = (if e is Forbidden then Ok tt else Raise e) ∧
  ledger_of r.2 = ledger_of w ∧
  invite_cache r.2 = invite_cache w ∧
  accounts_file r.2 = accounts_file w ∧
  calls r.2 = calls w.
Proof.
  cbn zeta. rewrite on_member_join_unfold, bind_run, load_invites_run.
  rewrite try_except_run, bind_run, guild_invites_run.
  assert (∀ w', (match e with Forbidden => mret () | _ => raise e end : M world ())
                  w' = (if e is Forbidden then Ok tt else Raise e, w')) as ->
    by (intros; by destruct e).
  cbn [fst snd]. world_simpl. split_and!; try done.
  unfold ledger_of. world_simpl. apply healed_doc_of.
Qed.

(** ** Joins in a row, and joins with claims *)

(** The world after a join that credited [i], with no failing write. *)
Lemma on_member_join_run_first w gid c before i after :
  faults w = [] →
  invite_cache w !! gid = Some c →
  (∀ j, j ∈ before → uses j ≤ cached c j) →
  uses i > cached c i →
  on_member_join gid (Ok (before ++ i :: after)) w =
    (Ok tt,
     World (accounts_file w)
       (File (Some (Doc (credit 1 (ensure_guild (ledger_of w) (str gid))
                           (str gid) (str (inviter i))))) None)
       []
       (<[gid := <[code i := uses i]> c]> (invite_cache w))
       (calls w)).
Proof.
  intros Hf Hc Hb Hi. rewrite (on_member_join_run w gid c) by done.
  cbn zeta. by rewrite (used_invite_first c before i after Hb Hi).
Qed.

(** Once [i] is recorded, the invites that had not grown still have not. *)
Lemma cached_insert_le c i j :
  uses i > cached c i →
  uses j ≤ cached c j →
  uses j ≤ cached (<[code i := uses i]> c) j.
Proof.
  intros Hi Hj. rewrite cached_insert. case_decide as H; [|done].
  unfold cached in *. rewrite H in Hj. lia.
Qed.

(** X21.  A join is credited once: when one fetched invite has grown and the
    join has credited it, a second join that fetches the same counts credits
    nobody and changes neither the ledger on disk nor the cache. *)
Theorem on_member_join_credits_once w gid c before i after :
  faults w = [] →
  invite_cache w !! gid = Some c →
  (∀ j, j ∈ before ++ after → uses j ≤ cached c j) →
  uses i > cached c i →
  let new_invites := before ++ i :: after in
  let w1 := exec (on_member_join gid (Ok new_invites)) w in
  let r := on_member_join gid (Ok new_invites) w1 in
  r.1 = Ok tt ∧
  ledger_of r.2 = ledger_of w1 ∧
  invite_cache r.2 = invite_cache w1 ∧
  balance (ledger_of r.2) (str gid) (str (inviter i))
  = balance (ledger_of w) (str gid) (str (inviter i)) + 1.
Proof.
  intros Hf Hc Hall Hi. cbn zeta. unfold exec.
  rewrite (on_member_join_run_first w gid c before i after); try done.
  2:{ intros j Hj. apply Hall. apply elem_of_app. by left. }
  cbn [snd].
  rewrite (on_member_join_run _ gid (<[code i := uses i]> c));
    [|done|apply lookup_insert_eq].
  cbn zeta. rewrite used_invite_none.
  2:{ intros j [Hj|[->|Hj]%elem_of_cons]%elem_of_app.
      - apply cached_insert_le; [done|]. apply Hall, elem_of_app. by left.
      - rewrite cached_insert, decide_True by done. lia.
      - apply cached_insert_le; [done|]. apply Hall, elem_of_app. by right. }
  cbn [fst snd]. rewrite !ledger_of_World, ensure_guild_credit. world_simpl.
  split_and!; try done.
  rewrite balance_credit, balance_ensure_guild, decide_True by done. done.
Qed.

Lemma on_member_join_credits_once_witness :
  let w1 := exec (on_member_join 7 (Ok [invite_A; invite_B])) demo_world in
  let r := on_member_join 7 (Ok [invite_A; invite_B]) w1 in
  r.1 = Ok tt ∧ ledger_of r.2 = ledger_of w1
  ∧ balance (ledger_of r.2) (str 7) (str 43) = 1.
Proof.
  destruct (on_member_join_credits_once demo_world 7
              {[ "A" := 3; "B" := 5 ]} [invite_A] invite_B [])
    as (H1 & H2 & _ & H4); [reflexivity|reflexivity| |reflexivity|].
  - intros j ->%list_elem_of_singleton. vm_compute. discriminate.
  - split_and!; [exact H1|exact H2|].
    etransitivity; [exact H4|reflexivity].
Defined.

(** X22.  When two fetched invites have grown, a join credits only the first
    in fetched order; the second is credited by the next join that fetches
    the same counts, whoever joined then. *)
Theorem on_member_join_second_delta w gid c before i mid k after :
  faults w = [] →
  invite_cache w !! gid = Some c →
  (∀ j, j ∈ before ++ mid → uses j ≤ cached c j) →
  uses i > cached c i →
  uses k > cached c k →
  code k ≠ code i →
  let new_invites := before ++ i :: mid ++ k :: after in
  let w1 := exec (on_member_join gid (Ok new_invites)) w in
  let w2 := exec (on_member_join gid (Ok new_invites)) w1 in
  (∀ g u, balance (ledger_of w1) g u
          = balance (ledger_of w) g u
            + (if decide (str gid = g ∧ str (inviter i) = u) then 1 else 0)) ∧
  (∀ g u, balance (ledger_of w2) g u
          = balance (ledger_of w1) g u
            + (if decide (str gid = g ∧ str (inviter k) = u) then 1 else 0)).
Proof.
  intros Hf Hc Hall Hi Hk Hne. cbn zeta. unfold exec.
  rewrite (on_member_join_run_first w gid c before i (mid ++ k :: after));
    try done.
  2:{ intros j Hj. apply Hall. apply elem_of_app. by left. }
  cbn [snd].
  replace (before ++ i :: mid ++ k :: after)
    with ((before ++ i :: mid) ++ k :: after)
    by (by rewrite <- (assoc_L (++))).
  rewrite (on_member_join_run_first _ gid (<[code i := uses i]> c)
             (before ++ i :: mid) k after);
    [|done|apply lookup_insert_eq| |].
  - cbn [snd]. rewrite !ledger_of_World, ensure_guild_credit. split.
    + intros g u. by rewrite balance_credit, balance_ensure_guild.
    + intros g u. by rewrite balance_credit.
  - intros j [Hj|[->|Hj]%elem_of_cons]%elem_of_app.
    + apply cached_insert_le; [done|]. apply Hall, elem_of_app. by left.
    + rewrite cached_insert, decide_True by done. lia.
    + apply cached_insert_le; [done|]. apply Hall, elem_of_app. by right.
  - by rewrite cached_insert, decide_False.
Qed.

Lemma on_member_join_second_delta_witness :
  let new_invites := [invite_A; invite_B; invite_C] in
  let w1 := exec (on_member_join 7 (Ok new_invites)) demo_world in
  let w2 := exec (on_member_join 7 (Ok new_invites)) w1 in
  balance (ledger_of w1) (str 7) (str 44) = 0
  ∧ balance (ledger_of w2) (str 7) (str 44) = 1.
Proof.
  destruct (on_member_join_second_delta demo_world 7
              {[ "A" := 3; "B" := 5 ]} [invite_A] invite_B [] invite_C [])
    as (H1 & H2); [reflexivity|reflexivity| |reflexivity|reflexivity|done|].
  - intros j ->%list_elem_of_singleton. vm_compute. discriminate.
  - split.
    + etransitivity; [exact (H1 _ _)|reflexivity].
    + etransitivity; [exact (H2 _ _)|].
      etransitivity; [exact (f_equal (λ z, z + _) (H1 _ _))|reflexivity].
Defined.

(** X23.  When the write of the ledger fails in [on_member_join], the
    [OSError] leaves the handler and no credit is on disk, but the cache has
    already taken the invite's new count.  The credit is lost: a later join
    that fetches the same counts, with no failing write, credits nobody. *)
Theorem on_member_join_write_failure w gid c before i after l r fs :
  main (invites_file w) = Some (Doc l) →
  faults w = r :: fs →
  r ≠ WOk →
  invite_cache w !! gid = Some c →
  (∀ j, j ∈ before ++ after → uses j ≤ cached c j) →
  uses i > cached c i →
  let new_invites := before ++ i :: after in
  let res := on_member_join gid (Ok new_invites) w in
  res.1 = Raise OSError ∧
  ledger_of res.2 = l ∧
  invite_cache res.2 = <[gid := <[code i := uses i]> c]> (invite_cache w) ∧
  (fs = [] →
   let res2 := on_member_join gid (Ok new_invites) res.2 in
   res2.1 = Ok tt ∧
   ∀ g u, balance (ledger_of res2.2) g u = balance l g u).
Proof.
  intros Hm Hf Hr Hc Hall Hi. cbn zeta.
  assert (on_member_join gid (Ok (before ++ i :: after)) w =
          (Raise OSError,
           World (accounts_file w) (File (Some (Doc l)) None) fs
             (<[gid := <[code i := uses i]> c]> (invite_cache w)) (calls w)))
    as ->.
  { rewrite on_member_join_unfold, bind_run, load_invites_run.
    rewrite (healed_Doc _ _ _ _ Hm). cbn [fst snd].
    rewrite try_except_run, bind_run, guild_invites_run, bind_run.
    rewrite (scan_invites_run _ _ _ _ _ c)
      by (done || apply ensure_guild_lookup).
    rewrite (used_invite_first c before i after); [|intros; apply Hall, elem_of_app; by left|done].
    rewrite save_invites_run. world_simpl. rewrite Hf.
    assert (∀ d f, saved (D:=gmap string (gmap string Z)) d f (r :: fs)
                   = (Raise OSError, File (main f) None, fs)) as ->
      by (intros; by destruct r).
    world_simpl. unfold raise. by rewrite Hm. }
  cbn [fst snd]. rewrite ledger_of_World. world_simpl.
  split_and!; try done.
  intros ->.
  rewrite (on_member_join_run _ gid (<[code i := uses i]> c));
    [|done|apply lookup_insert_eq].
  cbn zeta. rewrite used_invite_none.
  2:{ intros j [Hj|[->|Hj]%elem_of_cons]%elem_of_app.
      - apply cached_insert_le; [done|]. apply Hall, elem_of_app. by left.
      - rewrite cached_insert, decide_True by done. lia.
      - apply cached_insert_le; [done|]. apply Hall, elem_of_app. by right. }
  cbn [fst snd]. rewrite !ledger_of_World. split; [done|].
  intros g u. apply balance_ensure_guild.
Qed.

Lemma on_member_join_write_failure_witness :
  let res := on_member_join 7 (Ok [invite_A; invite_B]) write_fault_world in
  res.1 = Raise OSError ∧
  ledger_of res.2 = {[ "7" := {[ "42" := 1 ]} ]} ∧
  invite_cache res.2 = {[ 7 := {[ "A" := 3; "B" := 6 ]} ]}.
Proof.
  destruct (on_member_join_write_failure write_fault_world 7
              {[ "A" := 3; "B" := 5 ]} [invite_A] invite_B []
              {[ "7" := {[ "42" := 1 ]} ]} WTorn [])
    as (H1 & H2 & H3 & _);
    [reflexivity|reflexivity|discriminate|reflexivity| |reflexivity|].
  - intros j ->%list_elem_of_singleton. vm_compute. discriminate.
  - split_and!; [exact H1|exact H2|].
    etransitivity; [exact H3|reflexivity].
Defined.

(** X24.  One credited join pays for exactly one account: an inviter with no
    credit whose invite is the one used can claim the front account right
    after the join, and a second claim is refused for lack of credit. *)
Theorem join_pays_for_one_claim w gid c before i after log x rest :
  faults w = [] →
  invite_cache w !! gid = Some c →
  (∀ j, j ∈ before → uses j ≤ cached c j) →
  uses i > cached c i →
  balance (ledger_of w) (str gid) (str (inviter i)) = 0 →
  pool_of w = x :: rest →
  let w1 := exec (on_member_join gid (Ok (before ++ i :: after))) w in
  let w2 := exec (claim gid (inviter i) Sent log) w1 in
  let w3 := exec (claim gid (inviter i) Sent log) w2 in
  delivered (calls w3) = delivered (calls w) ++ [x] ∧
  pool_of w3 = rest ∧
  balance (ledger_of w3) (str gid) (str (inviter i)) = 0 ∧
  responses (calls w3) = responses (calls w) ++ [commit_reply log; NeedInvite].
Proof.
  intros Hf Hc Hb Hi Hn Hp. cbn zeta. unfold exec.
  rewrite (on_member_join_run_first w gid c before i after) by done.
  cbn [snd].
  set (l1 := credit 1 (ensure_guild (ledger_of w) (str gid)) (str gid)
               (str (inviter i))).
  assert (balance l1 (str gid) (str (inviter i)) = 1) as Hl1.
  { unfold l1. rewrite balance_credit, balance_ensure_guild, Hn.
    by rewrite decide_True. }
  rewrite (claim_run_commit
             (World (accounts_file w) (File (Some (Doc l1)) None) []
                (<[gid := <[code i := uses i]> c]> (invite_cache w)) (calls w))
             gid (inviter i) log x rest);
    [|reflexivity|rewrite ledger_of_World; lia|exact Hp].
  cbn [snd]. rewrite ledger_of_World. world_simpl.
  set (l2 := credit (-1) l1 (str gid) (str (inviter i))).
  assert (balance l2 (str gid) (str (inviter i)) = 0) as Hl2.
  { unfold l2. rewrite balance_credit, Hl1. by rewrite decide_True. }
  rewrite claim_run_need_invite;
    [|reflexivity|rewrite ledger_of_World; lia].
  cbn [snd]. world_simpl. rewrite pool_of_World, !ledger_of_World.
  rewrite balance_init_ledger, !delivered_app, !responses_app.
  change (delivered [Respond NeedInvite]) with (@nil string).
  change (responses [Respond NeedInvite]) with [NeedInvite].
  change (delivered (?a :: ?l)) with (x :: delivered (commit_calls (inviter i) log)).
  change (responses (UserSend ?u ?a ?r :: ?l))
    with (responses (commit_calls (inviter i) log)).
  rewrite delivered_commit_calls, responses_commit_calls.
  by rewrite (right_id_L [] (++)), <- (assoc_L (++)).
Qed.

Lemma join_pays_for_one_claim_witness :
  let w1 := exec (on_member_join 7 (Ok [invite_A; invite_B])) demo_world in
  let w2 := exec (claim 7 43 Sent None) w1 in
  let w3 := exec (claim 7 43 Sent None) w2 in
  delivered (calls w3) = ["X"] ∧ pool_of w3 = ["Y"]
  ∧ responses (calls w3) = [Success; NeedInvite].
Proof.
  destruct (join_pays_for_one_claim demo_world 7 {[ "A" := 3; "B" := 5 ]}
              [invite_A] invite_B [] None "X" ["Y"])
    as (H1 & H2 & _ & H4);
    [reflexivity|reflexivity| |reflexivity|reflexivity|reflexivity|].
  - intros j ->%list_elem_of_singleton. vm_compute. discriminate.
  - split_and!; [exact H1|exact H2|exact H4].
Defined.
